(** * hamgo update protocol: wire codecs of [protocol/upd.go]

    A shallow embedding of the cache-synchronisation codecs and the
    properties of their encoders and decoders.

    Conventions of the embedding.
    - Go's [int] is taken to be 64 bits wide, so [int(x)] of a [uint16] or a
      [uint32] is the same non-negative number and the index arithmetic of
      the decoders does not wrap; lengths and indices are in [Z].
    - [uint8] is [byte]; [uint16], [uint32] and [uint64] fields are numbers
      in [Z], their ranges stated where a theorem needs them.
    - A run-time panic (index or slice bound out of range) is the result
      [Panic]; every slice expression of the source is a checked operation.
    - Logging calls have no effect on results and are left out.
    - [Contact] and [Message] with their codecs live in other files of the
      package; they are parameters here, assumed to return normally. *)

From Stdlib Require Import String.
From Stdlib Require Import ZArith List Lia Bool.
From Stdlib Require Import Init.Byte.
From Stdlib Require Strings.Byte.
Import ListNotations.
Open Scope Z_scope.

(** ** Outcomes of Go code *)

Inductive go (A : Type) : Type :=
| Ret (a : A)
| Panic.
Arguments Ret {A} a.
Arguments Panic {A}.

Definition bind {A B : Type} (c : go A) (k : A -> go B) : go B :=
  match c with
  | Ret a => k a
  | Panic => Panic
  end.

(** The code returned normally. *)
Definition returns {A : Type} (c : go A) : Prop := exists a, c = Ret a.

Notation "x <- c ;; k" := (bind c (fun x => k))
  (at level 61, c at next level, right associativity).
Notation "' p <- c ;; k" := (bind c (fun x => let 'p := x in k))
  (at level 61, p pattern, c at next level, right associativity).

(** ** Bytes and byte slices *)

Definition bytes : Type := list byte.

Definition len {A : Type} (l : list A) : Z := Z.of_nat (length l).

Definition byte_of_Z (z : Z) : byte :=
  match Byte.of_N (Z.to_N (z mod 256)) with
  | Some b => b
  | None => x00
  end.

Definition Z_of_byte (b : byte) : Z := Z.of_N (Byte.to_N b).

(** [make([]byte, n)]: [n] zero bytes, capacity [n]. *)
Definition make (n : Z) : bytes := repeat x00 (Z.to_nat n).

(** [buf[lo:]]: the bound is the length of [buf]. *)
Definition slice_from (buf : bytes) (lo : Z) : go bytes :=
  if (0 <=? lo) && (lo <=? len buf)
  then Ret (skipn (Z.to_nat lo) buf)
  else Panic.

(** [buf[lo:hi]] on a buffer whose capacity is its length, as [make]
    returns it. A buffer handed to a decoder may have spare capacity; the
    decoders only slice within the length, where the two bounds agree. *)
Definition slice (buf : bytes) (lo hi : Z) : go bytes :=
  if (0 <=? lo) && (lo <=? hi) && (hi <=? len buf)
  then Ret (firstn (Z.to_nat (hi - lo)) (skipn (Z.to_nat lo) buf))
  else Panic.

(** [buf[i]]. *)
Definition index (buf : bytes) (i : Z) : go byte :=
  if (0 <=? i) && (i <? len buf)
  then match nth_error buf (Z.to_nat i) with
       | Some b => Ret b
       | None => Panic
       end
  else Panic.

(** A slice expression shares its array with [buf]: writing through the
    window [buf[lo:...]] changes [buf] at [lo]. [splice buf lo w] is [buf]
    after the window that starts at [lo] has become [w]. *)
Definition splice (buf : bytes) (lo : Z) (w : bytes) : bytes :=
  firstn (Z.to_nat lo) buf ++ w ++ skipn (Z.to_nat lo + length w) buf.

(** [buf[i] = b]. *)
Definition store (buf : bytes) (i : Z) (b : byte) : go bytes :=
  if (0 <=? i) && (i <? len buf) then Ret (splice buf i [b]) else Panic.

(** The built-in [copy(dst, src)]: the first [min(len dst, len src)] bytes
    of [dst] are overwritten; it never panics. *)
Definition copy (dst src : bytes) : bytes :=
  firstn (length dst) src ++ skipn (length src) dst.

(** ** [encoding/binary]'s little-endian numbers *)

Fixpoint le_encode (n : nat) (v : Z) : bytes :=
  match n with
  | O => []
  | S n' => byte_of_Z v :: le_encode n' (v / 256)
  end.

Fixpoint le_decode (bs : bytes) : Z :=
  match bs with
  | [] => 0
  | b :: bs' => Z_of_byte b + 256 * le_decode bs'
  end.

(** The number in the first [n] bytes of a buffer. *)
Definition head_uint (n : nat) (buf : bytes) : Z := le_decode (firstn n buf).

(** [binary.LittleEndian.UintN(b)] reads the first [n] bytes of [b] and
    panics when [b] is shorter. *)
Definition le_uint (n : nat) (b : bytes) : go Z :=
  if len b <? Z.of_nat n then Panic else Ret (le_decode (firstn n b)).

(** [binary.LittleEndian.PutUintN(b, v)] overwrites the first [n] bytes of
    [b] and panics when [b] is shorter. *)
Definition le_put (n : nat) (b : bytes) (v : Z) : go bytes :=
  if len b <? Z.of_nat n then Panic else Ret (le_encode n v ++ skipn n b).

Definition Uint16 : bytes -> go Z := le_uint 2.
Definition Uint32 : bytes -> go Z := le_uint 4.
Definition Uint64 : bytes -> go Z := le_uint 8.
Definition PutUint16 : bytes -> Z -> go bytes := le_put 2.
Definition PutUint32 : bytes -> Z -> go bytes := le_put 4.
Definition PutUint64 : bytes -> Z -> go bytes := le_put 8.

(** Ranges of the unsigned integer types. *)
Definition uint16 (z : Z) : Prop := 0 <= z < 2 ^ 16.
Definition uint32 (z : Z) : Prop := 0 <= z < 2 ^ 32.
Definition uint64 (z : Z) : Prop := 0 <= z < 2 ^ 64.

(** A [[]byte] value held by a struct: the bytes up to its length, and the
    bytes of its array between length and capacity. *)
Record ByteSlice : Type := {
  elems : bytes;
  spare : bytes
}.

Definition cap (s : ByteSlice) : Z := len (elems s) + len (spare s).

(** [s[:hi]]: allowed up to the capacity. *)
Definition slice_to (s : ByteSlice) (hi : Z) : go bytes :=
  if (0 <=? hi) && (hi <=? cap s)
  then Ret (firstn (Z.to_nat hi) (elems s ++ spare s))
  else Panic.

(** ** The external codecs *)

Class ContactCodec (Contact : Type) : Type := {
  ContactBytes : Contact -> bytes;
  ParseContact : bytes -> option Contact * bytes
}.

(** [ParseMessage] returns a pair in the source; [upd.go] drops its second
    component. *)
Class MessageCodec (Message : Type) : Type := {
  MessageBytes : Message -> bytes;
  ParseMessage : bytes -> option Message
}.

(** ** The structs and codecs of [upd.go] *)

Section Protocol.

Context {Contact Message : Type}.
Context {CC : ContactCodec Contact} {MC : MessageCodec Message}.

(** [UpdPayload]. *)
Record UpdPayload : Type := {
  Operation : byte;
  DataLength : Z;
  Data : ByteSlice
}.

(** [UpdRequestCacheEntry]. *)
Record UpdRequestCacheEntry : Type := {
  SeqCounter : Z;
  Source : Contact
}.

(** [UpdPayloadCacheRequest]; its fields are [NumEntries] and [Entries]. *)
Record UpdPayloadCacheRequest : Type := {
  ReqNumEntries : Z;
  ReqEntries : list UpdRequestCacheEntry
}.

(** [UpdPayloadEntry]; its fields are [Length] and [Message]. *)
Record UpdPayloadEntry : Type := {
  Length : Z;
  EntryMessage : Message
}.

(** [UpdPayloadCacheResponse]; its fields are [NumEntries] and [Entries]. *)
Record UpdPayloadCacheResponse : Type := {
  RespNumEntries : Z;
  RespEntries : list UpdPayloadEntry
}.

(** [(e *UpdPayloadEntry) Bytes]. *)
Definition UpdPayloadEntry_Bytes (e : UpdPayloadEntry) : go bytes :=
  let msb := MessageBytes (EntryMessage e) in
  let lm := len msb in
  let buf := make (4 + lm) in
  let idx := 0 in
  w <- slice_from buf idx ;;
  w <- PutUint32 w (lm mod 2 ^ 32) ;;
  let buf := splice buf idx w in
  let idx := idx + 4 in
  w <- slice_from buf idx ;;
  let buf := splice buf idx (copy w msb) in
  Ret buf.

(** [ParsePayloadEntry]. A nil pointer is [None], a nil slice is [[]]. *)
Definition ParsePayloadEntry (buf : bytes)
  : go (option UpdPayloadEntry * bytes) :=
  let idx := 0 in
  if len buf <? 4 then Ret (None, [])
  else
    w <- slice buf idx (idx + 4) ;;
    l <- Uint32 w ;;
    let idx := idx + 4 in
    if len buf <? idx + l then Ret (None, [])
    else
      w <- slice_from buf idx ;;
      match ParseMessage w with
      | None =>
          rest <- slice_from buf (idx + l) ;;
          Ret (None, rest)
      | Some msg =>
          rest <- slice_from buf (idx + l) ;;
          Ret (Some {| Length := l; EntryMessage := msg |}, rest)
      end.

(** [(e *UpdRequestCacheEntry) Bytes]. *)
Definition UpdRequestCacheEntry_Bytes (e : UpdRequestCacheEntry) : go bytes :=
  let ct := ContactBytes (Source e) in
  let buf := make (len ct + 4) in
  let idx := 0 in
  w <- slice buf idx (idx + 8) ;;
  w <- PutUint64 w (SeqCounter e) ;;
  let buf := splice buf idx w in
  let idx := idx + 8 in
  w <- slice_from buf idx ;;
  let buf := splice buf idx (copy w ct) in
  Ret buf.

(** [ParseCacheEntry]. *)
Definition ParseCacheEntry (buf : bytes)
  : go (option UpdRequestCacheEntry * bytes) :=
  let idx := 0 in
  if len buf <? 9 then Ret (None, [])
  else
    w <- slice buf idx (idx + 8) ;;
    seq <- Uint64 w ;;
    let idx := idx + 8 in
    w <- slice_from buf idx ;;
    let '(ct, rbuf) := ParseContact w in
    match ct with
    | None => Ret (None, [])
    | Some c => Ret (Some {| SeqCounter := seq; Source := c |}, rbuf)
    end.

(** The first loop of both list encoders: encode every entry, keep the
    encodings and their total length. *)
Fixpoint collect {E : Type} (enc : E -> go bytes) (es : list E)
    (ent : list bytes) (tlen : Z) : go (list bytes * Z) :=
  match es with
  | [] => Ret (ent, tlen)
  | c :: es' =>
      e <- enc c ;;
      collect enc es' (ent ++ [e]) (tlen + len e)
  end.

(** The second loop of both list encoders: [copy(buf[idx:], e)] and
    [idx += len(e)] for every encoding. *)
Fixpoint put_entries (ent : list bytes) (buf : bytes) (idx : Z) : go bytes :=
  match ent with
  | [] => Ret buf
  | e :: ent' =>
      w <- slice_from buf idx ;;
      put_entries ent' (splice buf idx (copy w e)) (idx + len e)
  end.

(** [(r *UpdPayloadCacheRequest) Bytes]. *)
Definition UpdPayloadCacheRequest_Bytes (r : UpdPayloadCacheRequest)
  : go bytes :=
  '(ent, tlen) <- collect UpdRequestCacheEntry_Bytes (ReqEntries r) [] 0 ;;
  let buf := make (tlen + 4) in
  let idx := 0 in
  w <- slice_from buf idx ;;
  w <- PutUint32 w (ReqNumEntries r) ;;
  let buf := splice buf idx w in
  let idx := idx + 4 in
  put_entries ent buf idx.

(** [(r *UpdPayloadCacheResponse) Bytes]. *)
Definition UpdPayloadCacheResponse_Bytes (r : UpdPayloadCacheResponse)
  : go bytes :=
  '(mbufs, tlen) <- collect UpdPayloadEntry_Bytes (RespEntries r) [] 0 ;;
  let buf := make (tlen + 4) in
  let idx := 0 in
  w <- slice buf idx (idx + 4) ;;
  w <- PutUint32 w (RespNumEntries r) ;;
  let buf := splice buf idx w in
  let idx := idx + 4 in
  put_entries mbufs buf idx.

(** The variables the loop of [ParsePayloadCacheResponse] updates. *)
Record RespLoop : Type := {
  resp_buf : bytes;
  resp_idx : Z;
  resp_entries : list UpdPayloadEntry
}.

(** One iteration of [for i := 0; i < int(pcr.NumEntries); i++]. In the
    branch [m == nil] the source runs [continue]: [rbuf] is dropped and
    neither [buf] nor [idx] is assigned. *)
Definition response_iter (st : RespLoop) : go RespLoop :=
  w <- slice_from (resp_buf st) (resp_idx st) ;;
  '(m, rbuf) <- ParsePayloadEntry w ;;
  match m with
  | None => Ret st
  | Some e =>
      Ret {| resp_buf := rbuf;
             resp_idx := 0;
             resp_entries := resp_entries st ++ [e] |}
  end.

(** The loop, by the number of iterations still to run. *)
Fixpoint response_loop (n : nat) (st : RespLoop) : go RespLoop :=
  match n with
  | O => Ret st
  | S n' =>
      st' <- response_iter st ;;
      response_loop n' st'
  end.

(** [ParsePayloadCacheResponse]. *)
Definition ParsePayloadCacheResponse (buf : bytes)
  : go (option UpdPayloadCacheResponse) :=
  let idx := 0 in
  if len buf <? 4 then Ret None
  else
    w <- slice buf idx (idx + 4) ;;
    n <- Uint32 w ;;
    let idx := idx + 4 in
    st <- response_loop (Z.to_nat n)
            {| resp_buf := buf; resp_idx := idx; resp_entries := [] |} ;;
    Ret (Some {| RespNumEntries := n; RespEntries := resp_entries st |}).

(** The variables the loop of [ParsePayloadCacheRequest] updates. *)
Record ReqLoop : Type := {
  req_buf : bytes;
  req_entries : list UpdRequestCacheEntry
}.

(** How an iteration leaves the loop body: on to the next one (by reaching
    the end or by [continue]), or out of the loop by [break]. *)
Inductive flow : Type := Next | Break.

(** One iteration of [for i := 0; i < int(cr.NumEntries); i++]. *)
Definition request_iter (st : ReqLoop) : go (ReqLoop * flow) :=
  '(e, rbuf) <- ParseCacheEntry (req_buf st) ;;
  match e with
  | None => Ret (st, Next)
  | Some c =>
      let st' := {| req_buf := rbuf; req_entries := req_entries st ++ [c] |} in
      if len rbuf =? 0 then Ret (st', Break) else Ret (st', Next)
  end.

Fixpoint request_loop (n : nat) (st : ReqLoop) : go ReqLoop :=
  match n with
  | O => Ret st
  | S n' =>
      '(st', f) <- request_iter st ;;
      match f with
      | Break => Ret st'
      | Next => request_loop n' st'
      end
  end.

(** [ParsePayloadCacheRequest]. *)
Definition ParsePayloadCacheRequest (buf : bytes)
  : go (option UpdPayloadCacheRequest) :=
  let idx := 0 in
  if len buf <? 4 then Ret None
  else
    w <- slice buf idx (idx + 4) ;;
    n <- Uint32 w ;;
    let idx := idx + 4 in
    buf <- slice_from buf idx ;;
    st <- request_loop (Z.to_nat n) {| req_buf := buf; req_entries := [] |} ;;
    Ret (Some {| ReqNumEntries := n; ReqEntries := req_entries st |}).

(** [(u *UpdPayload) Bytes]. *)
Definition UpdPayload_Bytes (u : UpdPayload) : go bytes :=
  let buf := make (3 + DataLength u) in
  let idx := 0 in
  buf <- store buf idx (Operation u) ;;
  let idx := idx + 1 in
  w <- slice buf idx (idx + 2) ;;
  w <- PutUint16 w (DataLength u) ;;
  let buf := splice buf idx w in
  let idx := idx + 2 in
  w <- slice_from buf idx ;;
  d <- slice_to (Data u) (DataLength u) ;;
  Ret (splice buf idx (copy w d)).

(** The error of [errors.New]. *)
Definition error : Type := string.

(** [ParseUpdPayload]: [inl] for a payload with a nil error, [inr] for a nil
    payload with an error. The returned [Data] is a window of [buf], whose
    capacity runs to the end of [buf]. *)
Definition ParseUpdPayload (buf : bytes) : go (UpdPayload + error) :=
  let idx := 0 in
  if len buf <? 3 then Ret (inr "payload invalid"%string)
  else
    op <- index buf idx ;;
    let idx := idx + 1 in
    w <- slice buf idx (idx + 2) ;;
    dl <- Uint16 w ;;
    let idx := idx + 2 in
    if len buf - idx <? dl then Ret (inr "payload invalid"%string)
    else if len buf <? idx + dl then Ret (inr "payload invalid"%string)
    else
      d <- slice buf idx (idx + dl) ;;
      Ret (inl {| Operation := op;
                  DataLength := dl;
                  Data := {| elems := d;
                             spare := skipn (Z.to_nat (idx + dl)) buf |} |}).

(** What is left of the buffer at the cursor of each list decoder. *)
Definition resp_remaining (st : RespLoop) : bytes :=
  skipn (Z.to_nat (resp_idx st)) (resp_buf st).

Definition req_remaining (st : ReqLoop) : bytes := req_buf st.

End Protocol.

Arguments UpdPayloadEntry Message : clear implicits.
Arguments UpdPayloadCacheResponse Message : clear implicits.
Arguments UpdRequestCacheEntry Contact : clear implicits.
Arguments UpdPayloadCacheRequest Contact : clear implicits.
Arguments RespLoop Message : clear implicits.
Arguments ReqLoop Contact : clear implicits.

(** ** Reference definitions the properties are stated against *)

Section Reference.

Context {Contact Message : Type}.
Context {CC : ContactCodec Contact} {MC : MessageCodec Message}.

(** The entries a response buffer holds in front of its first failure:
    up to [n] entries, each parsed where the one before it ended, stopping
    at the first position [ParsePayloadEntry] returns no entry for. *)
Fixpoint parseable_prefix (n : nat) (buf : bytes)
  : list (UpdPayloadEntry Message) :=
  match n with
  | O => []
  | S n' =>
      match ParsePayloadEntry buf with
      | Ret (Some e, rest) => e :: parseable_prefix n' rest
      | _ => []
      end
  end.

(** [present buf es]: [es] are the complete request entries of [buf], one
    after the other from its start, and what follows them (the end of the
    buffer, or bytes that are no complete entry) parses to no entry. *)
Inductive present : bytes -> list (UpdRequestCacheEntry Contact) -> Prop :=
| present_end (tail r : bytes) :
    ParseCacheEntry tail = Ret (None, r) ->
    present tail []
| present_cons (buf rest : bytes) (e : UpdRequestCacheEntry Contact)
    (es : list (UpdRequestCacheEntry Contact)) :
    ParseCacheEntry buf = Ret (Some e, rest) ->
    present rest es ->
    present buf (e :: es).

(** Two envelopes hold the same value: equal fields, [Data] compared by its
    bytes (as [bytes.Equal] does), whatever array lies behind them. *)
Definition same_payload (u v : UpdPayload) : Prop :=
  Operation u = Operation v /\
  DataLength u = DataLength v /\
  elems (Data u) = elems (Data v).

(** The wire form of an entry of a response: the length of its message's
    bytes in four bytes, then those bytes. *)
Definition framed (e : UpdPayloadEntry Message) : bytes :=
  le_encode 4 (len (MessageBytes (EntryMessage e)))
  ++ MessageBytes (EntryMessage e).

(** The [Length] field of an entry agrees with its message. *)
Definition length_agrees (e : UpdPayloadEntry Message) : Prop :=
  Length e = len (MessageBytes (EntryMessage e)).

(** The entries a request buffer holds in front of its first failure: up
    to [n] entries, each parsed where [ParseCacheEntry] left off, stopping
    at the first position it returns no entry for. *)
Fixpoint request_prefix (n : nat) (buf : bytes)
  : list (UpdRequestCacheEntry Contact) :=
  match n with
  | O => []
  | S n' =>
      match ParseCacheEntry buf with
      | Ret (Some e, rest) => e :: request_prefix n' rest
      | _ => []
      end
  end.

(** The wire form of an entry of a request as [ParseCacheEntry] reads it:
    the counter in eight bytes, then the contact's bytes. *)
Definition wire_entry (e : UpdRequestCacheEntry Contact) : bytes :=
  le_encode 8 (SeqCounter e) ++ ContactBytes (Source e).

(** The bytes the entries of a response declare: for each its four-byte
    prefix and its [Length]. *)
Fixpoint declared_bytes (es : list (UpdPayloadEntry Message)) : Z :=
  match es with
  | [] => 0
  | e :: es' => 4 + Length e + declared_bytes es'
  end.

End Reference.

(** ** A stand-in for the external codecs

    The theorems below hold for every [Contact] and [Message] codec. To run
    the definitions on concrete buffers a codec has to be chosen: a contact
    is a call sign behind one length byte, a message is one byte behind the
    marker byte [0x4d]. *)

Module Sample.

(** A contact: a call sign of six bytes, written as they are. *)
Record contact : Type := Call {
  k1 : byte; k2 : byte; k3 : byte; k4 : byte; k5 : byte; k6 : byte
}.

Definition contact_bytes (c : contact) : bytes :=
  [k1 c; k2 c; k3 c; k4 c; k5 c; k6 c].

Definition parse_contact (buf : bytes) : option contact * bytes :=
  match buf with
  | a :: b :: c :: d :: e :: f :: rest => (Some (Call a b c d e f), rest)
  | _ => (None, [])
  end.

#[global] Instance contact_codec : ContactCodec contact := {|
  ContactBytes := contact_bytes;
  ParseContact := parse_contact
|}.

(** A message: one byte, written behind the marker byte [0x4d]. *)
Definition message : Type := byte.

Definition message_bytes (m : message) : bytes := [x4d; m].

Definition parse_message (buf : bytes) : option message :=
  match buf with
  | x4d :: m :: _ => Some m
  | _ => None
  end.

#[global] Instance message_codec : MessageCodec message := {|
  MessageBytes := message_bytes;
  ParseMessage := parse_message
|}.

(** A second message codec over the same bytes, which reads a message back
    from exactly its two bytes and from nothing longer. *)
Definition parse_message_strict (buf : bytes) : option message :=
  match buf with
  | [x4d; m] => Some m
  | _ => None
  end.

Definition strict_message_codec : MessageCodec message := {|
  MessageBytes := message_bytes;
  ParseMessage := parse_message_strict
|}.

(** Response entries for the messages [a], [b] and [c]. *)
Definition entry_a : UpdPayloadEntry message :=
  {| Length := 2; EntryMessage := x61 |}.
Definition entry_b : UpdPayloadEntry message :=
  {| Length := 2; EntryMessage := x62 |}.
Definition entry_c : UpdPayloadEntry message :=
  {| Length := 2; EntryMessage := x63 |}.

Definition three_entries : UpdPayloadCacheResponse message :=
  {| RespNumEntries := 3; RespEntries := [entry_a; entry_b; entry_c] |}.

Definition two_entries : UpdPayloadCacheResponse message :=
  {| RespNumEntries := 2; RespEntries := [entry_a; entry_b] |}.

(** The two message bytes that take the place of the second message: same
    length, no marker. *)
Definition garbage : bytes := [xff; xff].

(** The encoding of [three_entries] with the message bytes of its second
    entry replaced by [garbage]. *)
Definition corrupted_response : bytes :=
  [x03; x00; x00; x00;
   x02; x00; x00; x00; x4d; x61;
   x02; x00; x00; x00; xff; xff;
   x02; x00; x00; x00; x4d; x63].

(** The loop of the response decoder over [corrupted_response], before
    its first iteration and after it. *)
Definition at_first_entry : RespLoop message :=
  {| resp_buf := corrupted_response; resp_idx := 4; resp_entries := [] |}.
Definition at_bad_entry : RespLoop message :=
  {| resp_buf := [x02; x00; x00; x00; xff; xff;
                  x02; x00; x00; x00; x4d; x63];
     resp_idx := 0;
     resp_entries := [entry_a] |}.

(** A response whose entry carries a [Length] that is not the length of
    its message's bytes. *)
Definition stale_length : UpdPayloadCacheResponse message :=
  {| RespNumEntries := 1;
     RespEntries := [{| Length := 0; EntryMessage := x61 |}] |}.

(** Lists whose [NumEntries] is not their length. *)
Definition miscounted_response : UpdPayloadCacheResponse message :=
  {| RespNumEntries := 5; RespEntries := [] |}.
Definition miscounted_request : UpdPayloadCacheRequest contact :=
  {| ReqNumEntries := 5; ReqEntries := [] |}.

(** Request entries. *)
Definition source_1 : UpdRequestCacheEntry contact :=
  {| SeqCounter := 7; Source := Call x44 x4c x31 x41 x42 x43 |}.
Definition source_2 : UpdRequestCacheEntry contact :=
  {| SeqCounter := 9; Source := Call x4f x45 x35 x58 x59 x5a |}.

Definition one_source : UpdPayloadCacheRequest contact :=
  {| ReqNumEntries := 1; ReqEntries := [source_1] |}.

(** Two complete request entries, then the end of the buffer. *)
Definition two_sources : bytes :=
  le_encode 8 7 ++ contact_bytes (Source source_1)
  ++ le_encode 8 9 ++ contact_bytes (Source source_2).

(** A request buffer at an entry whose contact is cut short. *)
Definition cut_short : ReqLoop contact :=
  {| req_buf := le_encode 8 7 ++ [x44; x4c]; req_entries := [] |}.

(** An envelope that declares ten bytes over a [Data] of nine, made with
    no spare capacity. *)
Definition overlong : UpdPayload :=
  {| Operation := x00; DataLength := 10;
     Data := {| elems := repeat x07 9; spare := [] |} |}.

(** An envelope that declares two bytes over a [Data] of four. *)
Definition underlong : UpdPayload :=
  {| Operation := x01; DataLength := 2;
     Data := {| elems := [x0a; x0b; x0c; x0d]; spare := [] |} |}.

(** A well-formed envelope. *)
Definition envelope : UpdPayload :=
  {| Operation := x01; DataLength := 3;
     Data := {| elems := [x0a; x0b; x0c]; spare := [] |} |}.

End Sample.

(** ** Facts about bytes, slices and little-endian numbers *)

Lemma Z_of_byte_range (b : byte) : 0 <= Z_of_byte b < 256.
Proof.
  unfold Z_of_byte. pose proof (Byte.to_N_bounded b). lia.
Qed.

Lemma Z_of_byte_of_Z (z : Z) : Z_of_byte (byte_of_Z z) = z mod 256.
Proof.
  unfold Z_of_byte, byte_of_Z.
  pose proof (Z.mod_pos_bound z 256 eq_refl) as Hm.
  destruct (Byte.of_N (Z.to_N (z mod 256))) as [b|] eqn:E.
  - apply Byte.to_of_N in E. rewrite E. lia.
  - apply Byte.of_N_None_iff in E. lia.
Qed.

Lemma byte_of_Z_of_byte (b : byte) : byte_of_Z (Z_of_byte b) = b.
Proof.
  unfold byte_of_Z, Z_of_byte.
  pose proof (Byte.to_N_bounded b) as Hb.
  rewrite Z.mod_small by lia.
  rewrite N2Z.id, Byte.of_to_N. reflexivity.
Qed.

Lemma len_cons {A : Type} (a : A) (l : list A) : len (a :: l) = 1 + len l.
Proof. unfold len. cbn [length]. lia. Qed.

Lemma len_app {A : Type} (l1 l2 : list A) : len (l1 ++ l2) = len l1 + len l2.
Proof. unfold len. rewrite length_app. lia. Qed.

Lemma len_nonneg {A : Type} (l : list A) : 0 <= len l.
Proof. unfold len. lia. Qed.

Lemma len_make (n : Z) : 0 <= n -> len (make n) = n.
Proof. intros Hn. unfold len, make. rewrite repeat_length. lia. Qed.

Lemma le_encode_length (n : nat) (v : Z) : length (le_encode n v) = n.
Proof.
  revert v. induction n as [|n IH]; intros v; cbn [le_encode length].
  - reflexivity.
  - now rewrite IH.
Qed.

Lemma le_decode_range (bs : bytes) :
  0 <= le_decode bs < 256 ^ Z.of_nat (length bs).
Proof.
  induction bs as [|b bs IH].
  - cbn. lia.
  - cbn [le_decode length]. rewrite Nat2Z.inj_succ, Z.pow_succ_r by lia.
    pose proof (Z_of_byte_range b). lia.
Qed.

Lemma le_decode_encode (n : nat) (v : Z) :
  le_decode (le_encode n v) = v mod 256 ^ Z.of_nat n.
Proof.
  revert v. induction n as [|n IH]; intros v.
  - cbn. now rewrite Z.mod_1_r.
  - cbn [le_encode le_decode]. rewrite IH, Z_of_byte_of_Z.
    rewrite Nat2Z.inj_succ, Z.pow_succ_r by lia.
    rewrite Z.rem_mul_r by lia. reflexivity.
Qed.

Lemma le_encode_decode (bs : bytes) : le_encode (length bs) (le_decode bs) = bs.
Proof.
  induction bs as [|b bs IH]; [reflexivity|].
  cbn [length le_encode le_decode].
  pose proof (Z_of_byte_range b) as Hb.
  f_equal.
  - rewrite <- (byte_of_Z_of_byte b) at 2. unfold byte_of_Z.
    replace ((Z_of_byte b + 256 * le_decode bs) mod 256) with (Z_of_byte b mod 256); [reflexivity|].
    replace (256 * le_decode bs) with (le_decode bs * 256) by lia.
    rewrite Z.mod_add by lia. reflexivity.
  - replace ((Z_of_byte b + 256 * le_decode bs) / 256) with (le_decode bs); [exact IH|].
    replace (256 * le_decode bs) with (le_decode bs * 256) by lia.
    rewrite Z.div_add by lia. rewrite Z.div_small by lia. lia.
Qed.

Lemma le_decode_encode_small (n : nat) (v : Z) :
  0 <= v < 256 ^ Z.of_nat n -> le_decode (le_encode n v) = v.
Proof.
  intros Hv. rewrite le_decode_encode. now apply Z.mod_small.
Qed.

Lemma slice_from_ok (buf : bytes) (lo : Z) :
  0 <= lo <= len buf -> slice_from buf lo = Ret (skipn (Z.to_nat lo) buf).
Proof.
  intros H. unfold slice_from.
  destruct (0 <=? lo) eqn:E1; [|lia].
  destruct (lo <=? len buf) eqn:E2; [|lia].
  reflexivity.
Qed.

Lemma slice_ok (buf : bytes) (lo hi : Z) :
  0 <= lo <= hi -> hi <= len buf ->
  slice buf lo hi = Ret (firstn (Z.to_nat (hi - lo)) (skipn (Z.to_nat lo) buf)).
Proof.
  intros H1 H2. unfold slice.
  destruct (0 <=? lo) eqn:E1; [|lia].
  destruct (lo <=? hi) eqn:E2; [|lia].
  destruct (hi <=? len buf) eqn:E3; [|lia].
  reflexivity.
Qed.

Lemma slice_panics (buf : bytes) (lo hi : Z) :
  len buf < hi -> slice buf lo hi = Panic.
Proof.
  intros H. unfold slice.
  destruct (hi <=? len buf) eqn:E3; [lia|].
  now rewrite andb_false_r.
Qed.

Lemma len_firstn (n : nat) (l : bytes) :
  Z.of_nat n <= len l -> len (firstn n l) = Z.of_nat n.
Proof. unfold len. intros H. rewrite length_firstn. lia. Qed.

Lemma len_skipn (n : nat) (l : bytes) :
  Z.of_nat n <= len l -> len (skipn n l) = len l - Z.of_nat n.
Proof. unfold len. intros H. rewrite length_skipn. lia. Qed.

Lemma le_uint_ok (n : nat) (b : bytes) :
  Z.of_nat n <= len b -> le_uint n b = Ret (le_decode (firstn n b)).
Proof.
  intros H. unfold le_uint.
  destruct (len b <? Z.of_nat n) eqn:E; [lia|reflexivity].
Qed.

Lemma le_put_ok (n : nat) (b : bytes) (v : Z) :
  Z.of_nat n <= len b -> le_put n b v = Ret (le_encode n v ++ skipn n b).
Proof.
  intros H. unfold le_put.
  destruct (len b <? Z.of_nat n) eqn:E; [lia|reflexivity].
Qed.

Lemma le_decode_firstn_range (n : nat) (b : bytes) :
  0 <= le_decode (firstn n b) < 256 ^ Z.of_nat n.
Proof.
  pose proof (le_decode_range (firstn n b)) as H.
  pose proof (firstn_le_length n b) as Hl.
  assert (256 ^ Z.of_nat (length (firstn n b)) <= 256 ^ Z.of_nat n)
    by (apply Z.pow_le_mono_r; lia).
  lia.
Qed.

Lemma read_at {B : Type} (n : nat) (buf : bytes) (lo : Z) (k : Z -> go B) :
  0 <= lo -> lo + Z.of_nat n <= len buf ->
  (w <- slice buf lo (lo + Z.of_nat n) ;; v <- le_uint n w ;; k v)
  = k (le_decode (firstn n (skipn (Z.to_nat lo) buf))).
Proof.
  intros H1 H2. rewrite slice_ok by lia. cbn [bind].
  replace (Z.to_nat (lo + Z.of_nat n - lo)) with n by lia.
  rewrite le_uint_ok.
  - cbn [bind]. rewrite firstn_firstn, Nat.min_id. reflexivity.
  - rewrite len_firstn; [lia|]. rewrite len_skipn; lia.
Qed.

(** ** The decoders in closed form *)

Section Decoders.

Context {Contact Message : Type}.
Context {CC : ContactCodec Contact} {MC : MessageCodec Message}.

Lemma ParsePayloadEntry_eq (buf : bytes) :
  ParsePayloadEntry buf =
  Ret (if len buf <? 4 then (None, [])
       else if len buf <? 4 + head_uint 4 buf then (None, [])
       else (option_map (Build_UpdPayloadEntry (head_uint 4 buf))
                        (ParseMessage (skipn 4 buf)),
             skipn (Z.to_nat (4 + head_uint 4 buf)) buf)).
Proof.
  unfold ParsePayloadEntry, Uint32, head_uint. cbv zeta.
  destruct (len buf <? 4) eqn:E4; [reflexivity|].
  change (0 + 4) with (0 + Z.of_nat 4).
  rewrite read_at by (cbn; lia).
  change (skipn (Z.to_nat 0) buf) with buf.
  change (0 + Z.of_nat 4) with 4.
  pose proof (le_decode_firstn_range 4 buf) as Hr.
  destruct (len buf <? 4 + le_decode (firstn 4 buf)) eqn:EL; [reflexivity|].
  rewrite slice_from_ok by lia. cbn [bind].
  change (Z.to_nat 4) with 4%nat.
  destruct (ParseMessage (skipn 4 buf)) as [msg|];
    rewrite slice_from_ok by lia; reflexivity.
Qed.

Lemma ParseCacheEntry_eq (buf : bytes) :
  ParseCacheEntry buf =
  Ret (if len buf <? 9 then (None, [])
       else match ParseContact (skipn 8 buf) with
            | (None, _) => (None, [])
            | (Some c, rbuf) =>
                (Some {| SeqCounter := head_uint 8 buf; Source := c |}, rbuf)
            end).
Proof.
  unfold ParseCacheEntry, Uint64, head_uint. cbv zeta.
  destruct (len buf <? 9) eqn:E9; [reflexivity|].
  change (0 + 8) with (0 + Z.of_nat 8).
  rewrite read_at by (cbn; lia).
  change (skipn (Z.to_nat 0) buf) with buf.
  rewrite slice_from_ok by (cbn; lia). cbn [bind].
  change (Z.to_nat (0 + Z.of_nat 8)) with 8%nat.
  destruct (ParseContact (skipn 8 buf)) as [[c|] rbuf]; reflexivity.
Qed.

End Decoders.

(** ** Writing through windows of a buffer *)

Lemma make_app (a b : Z) : 0 <= a -> 0 <= b -> make (a + b) = make a ++ make b.
Proof.
  intros Ha Hb. unfold make. rewrite Z2Nat.inj_add by lia. apply repeat_app.
Qed.

Lemma length_make (n : Z) : length (make n) = Z.to_nat n.
Proof. unfold make. apply repeat_length. Qed.

Lemma skipn_app_exact {A : Type} (n : nat) (pre rest : list A) :
  n = length pre -> skipn n (pre ++ rest) = rest.
Proof.
  intros ->. rewrite skipn_app, skipn_all, Nat.sub_diag. reflexivity.
Qed.

Lemma firstn_app_exact {A : Type} (n : nat) (pre rest : list A) :
  n = length pre -> firstn n (pre ++ rest) = pre.
Proof.
  intros ->. rewrite firstn_app, firstn_all, Nat.sub_diag, firstn_0.
  apply app_nil_r.
Qed.

Lemma slice_from_app (pre rest : bytes) (lo : Z) :
  lo = len pre -> slice_from (pre ++ rest) lo = Ret rest.
Proof.
  intros ->. rewrite slice_from_ok.
  - rewrite skipn_app_exact; [reflexivity|]. unfold len. lia.
  - rewrite len_app. pose proof (len_nonneg pre). pose proof (len_nonneg rest). lia.
Qed.

Lemma slice_app (pre mid post : bytes) (lo hi : Z) :
  lo = len pre -> hi = lo + len mid ->
  slice (pre ++ mid ++ post) lo hi = Ret mid.
Proof.
  intros -> ->.
  pose proof (len_nonneg pre). pose proof (len_nonneg mid).
  pose proof (len_nonneg post).
  rewrite slice_ok by (rewrite ?len_app; lia).
  rewrite skipn_app_exact by (unfold len; lia).
  rewrite firstn_app_exact by (unfold len; lia).
  reflexivity.
Qed.

Lemma splice_app (pre rest w : bytes) (lo : Z) :
  lo = len pre -> length w = length rest ->
  splice (pre ++ rest) lo w = pre ++ w.
Proof.
  intros -> Hw. unfold splice.
  rewrite firstn_app_exact by (unfold len; lia).
  rewrite skipn_all2; [now rewrite app_nil_r|].
  rewrite length_app. unfold len. lia.
Qed.

Lemma splice_app_mid (pre mid post w : bytes) (lo : Z) :
  lo = len pre -> length w = length mid ->
  splice (pre ++ mid ++ post) lo w = pre ++ w ++ post.
Proof.
  intros -> Hw. unfold splice.
  rewrite firstn_app_exact by (unfold len; lia).
  rewrite (app_assoc pre mid post).
  rewrite skipn_app_exact; [reflexivity|].
  rewrite length_app. unfold len. lia.
Qed.

Lemma copy_fits (dst src : bytes) :
  (length src <= length dst)%nat ->
  copy dst src = src ++ skipn (length src) dst.
Proof.
  intros H. unfold copy. now rewrite firstn_all2 by lia.
Qed.

Lemma copy_exact (dst src : bytes) :
  length src = length dst -> copy dst src = src.
Proof.
  intros H. rewrite copy_fits by lia. rewrite H, skipn_all. apply app_nil_r.
Qed.

Lemma copy_short (dst src : bytes) :
  (length dst <= length src)%nat ->
  copy dst src = firstn (length dst) src.
Proof.
  intros H. unfold copy. rewrite skipn_all2 by lia. apply app_nil_r.
Qed.

(** [PutUintN(buf[lo:], v)] where the window starts with [n] bytes [mid]:
    the window after the write. *)
Lemma put_from {B : Type} (n : nat) (pre mid post : bytes) (lo v : Z)
    (k : bytes -> go B) :
  lo = len pre -> length mid = n ->
  (w <- slice_from (pre ++ mid ++ post) lo ;; w' <- le_put n w v ;; k w')
  = k (le_encode n v ++ post).
Proof.
  intros Hlo Hn. rewrite slice_from_app by exact Hlo. cbn [bind].
  rewrite le_put_ok by (rewrite len_app; unfold len; lia).
  cbn [bind]. rewrite skipn_app_exact by lia. reflexivity.
Qed.

(** [PutUintN(buf[lo:lo+n], v)]: the window after the write. *)
Lemma put_range {B : Type} (n : nat) (pre mid post : bytes) (lo hi v : Z)
    (k : bytes -> go B) :
  lo = len pre -> length mid = n -> hi = lo + Z.of_nat n ->
  (w <- slice (pre ++ mid ++ post) lo hi ;; w' <- le_put n w v ;; k w')
  = k (le_encode n v).
Proof.
  intros Hlo Hn Hhi. subst lo n hi.
  rewrite slice_app by reflexivity. cbn [bind].
  rewrite le_put_ok by (unfold len; lia).
  cbn [bind]. rewrite skipn_all, app_nil_r. reflexivity.
Qed.

Lemma le_encode_mod (n : nat) (v : Z) :
  le_encode n (v mod 256 ^ Z.of_nat n) = le_encode n v.
Proof.
  revert v. induction n as [|n IH]; intros v; [reflexivity|].
  cbn [le_encode].
  rewrite Nat2Z.inj_succ, Z.pow_succ_r by lia.
  assert (Hp : 0 < 256 ^ Z.of_nat n) by (apply Z.pow_pos_nonneg; lia).
  rewrite Z.rem_mul_r by lia.
  f_equal.
  - unfold byte_of_Z.
    replace (256 * ((v / 256) mod 256 ^ Z.of_nat n))
      with ((v / 256) mod 256 ^ Z.of_nat n * 256) by lia.
    rewrite Z.mod_add by lia. rewrite Z.mod_mod by lia. reflexivity.
  - replace (256 * ((v / 256) mod 256 ^ Z.of_nat n))
      with ((v / 256) mod 256 ^ Z.of_nat n * 256) by lia.
    rewrite Z.div_add by lia.
    rewrite (Z.div_small (v mod 256)) by (apply Z.mod_pos_bound; lia).
    cbn [Z.add]. apply IH.
Qed.

(** ** The encoders in closed form *)

Section Encoders.

Context {Contact Message : Type}.
Context {CC : ContactCodec Contact} {MC : MessageCodec Message}.

Lemma UpdPayloadEntry_Bytes_eq (e : UpdPayloadEntry Message) :
  UpdPayloadEntry_Bytes e = Ret (framed e).
Proof.
  unfold UpdPayloadEntry_Bytes, framed, PutUint32. cbv zeta.
  set (msb := MessageBytes (EntryMessage e)).
  set (hdr := le_encode 4 (len msb mod 2 ^ 32)).
  assert (Hh : length hdr = 4%nat) by apply le_encode_length.
  pose proof (len_nonneg msb) as Hl.
  rewrite make_app by lia.
  change (make 4 ++ make (len msb)) with ([] ++ make 4 ++ make (len msb)).
  rewrite (put_from 4 [] (make 4) (make (len msb))) by reflexivity.
  fold hdr.
  rewrite splice_app
    by (reflexivity || (rewrite !length_app, !length_make; lia)).
  cbn [app].
  rewrite slice_from_app by (unfold len; lia). cbn [bind].
  rewrite copy_exact by (rewrite length_make; unfold len; lia).
  rewrite splice_app
    by (unfold len; lia || (rewrite length_make; unfold len; lia)).
  f_equal. f_equal. subst hdr.
  change (2 ^ 32) with (256 ^ Z.of_nat 4). apply le_encode_mod.
Qed.

(** The buffer of a request entry is made four bytes short of the eight
    bytes of the counter and the contact's bytes: the slice [buf[0:8]]
    panics for a contact of fewer than four bytes, and [copy] leaves out the
    last four bytes of any other. *)
Lemma UpdRequestCacheEntry_Bytes_eq (e : UpdRequestCacheEntry Contact) :
  UpdRequestCacheEntry_Bytes e =
  if len (ContactBytes (Source e)) <? 4 then Panic
  else Ret (le_encode 8 (SeqCounter e)
            ++ firstn (length (ContactBytes (Source e)) - 4)
                      (ContactBytes (Source e))).
Proof.
  unfold UpdRequestCacheEntry_Bytes, PutUint64. cbv zeta.
  set (ct := ContactBytes (Source e)).
  set (hdr := le_encode 8 (SeqCounter e)).
  assert (Hh : length hdr = 8%nat) by apply le_encode_length.
  pose proof (len_nonneg ct) as Hl.
  destruct (len ct <? 4) eqn:E4.
  - rewrite slice_panics; [reflexivity|]. rewrite len_make; lia.
  - replace (len ct + 4) with (8 + (len ct - 4)) by lia.
    rewrite make_app by lia.
    set (z := make (len ct - 4)).
    assert (Hz : length z = (length ct - 4)%nat)
      by (subst z; rewrite length_make; unfold len; lia).
    change (make 8 ++ z) with ([] ++ make 8 ++ z).
    rewrite (put_range 8 [] (make 8) z) by reflexivity.
    fold hdr.
    rewrite splice_app_mid by (reflexivity || (rewrite length_make; lia)).
    cbn [app].
    rewrite slice_from_app by (unfold len; lia). cbn [bind].
    rewrite copy_short by (unfold len in *; lia).
    rewrite splice_app; [rewrite Hz; reflexivity|unfold len; lia|].
    rewrite length_firstn. unfold len in *. lia.
Qed.

(** The second loop writes the encodings one after the other into the
    zero bytes that were made for them. *)
Lemma put_entries_eq (ent : list bytes) (pre : bytes) :
  put_entries ent (pre ++ make (len (concat ent))) (len pre)
  = Ret (pre ++ concat ent).
Proof.
  revert pre. induction ent as [|e ent IH]; intros pre.
  - cbn. reflexivity.
  - cbn [put_entries concat].
    rewrite len_app.
    pose proof (len_nonneg e). pose proof (len_nonneg (concat ent)).
    rewrite make_app by lia.
    rewrite slice_from_app by reflexivity. cbn [bind].
    rewrite copy_fits by (rewrite length_app, length_make; unfold len; lia).
    rewrite skipn_app_exact by (rewrite length_make; unfold len; lia).
    rewrite splice_app;
      [|reflexivity|rewrite !length_app, !length_make; unfold len; lia].
    rewrite <- len_app, !app_assoc. rewrite <- app_assoc.
    rewrite (app_assoc pre e (make _)).
    rewrite IH. now rewrite <- app_assoc.
Qed.

(** The first loop, when every entry encodes to [f c]. *)
Lemma collect_ok {E : Type} (enc : E -> go bytes) (f : E -> bytes)
    (es : list E) (ent : list bytes) (tlen : Z) :
  Forall (fun c => enc c = Ret (f c)) es ->
  collect enc es ent tlen
  = Ret (ent ++ map f es, tlen + len (concat (map f es))).
Proof.
  intros H. revert ent tlen.
  induction H as [|c es Hc _ IH]; intros ent tlen.
  - cbn. now rewrite app_nil_r, Z.add_0_r.
  - cbn [collect map concat]. rewrite Hc. cbn [bind].
    rewrite IH, <- app_assoc, len_app. cbn [app]. f_equal. f_equal. lia.
Qed.

(** The first loop, when some entry panics. *)
Lemma collect_panic {E : Type} (enc : E -> go bytes)
    (es : list E) (ent : list bytes) (tlen : Z) :
  Exists (fun c => enc c = Panic) es ->
  collect enc es ent tlen = Panic.
Proof.
  intros H. revert ent tlen.
  induction H as [c es Hc|c es _ IH]; intros ent tlen; cbn [collect].
  - now rewrite Hc.
  - destruct (enc c); cbn [bind]; [apply IH|reflexivity].
Qed.

Lemma UpdPayloadCacheResponse_Bytes_eq (r : UpdPayloadCacheResponse Message) :
  UpdPayloadCacheResponse_Bytes r
  = Ret (le_encode 4 (RespNumEntries r) ++ concat (map framed (RespEntries r))).
Proof.
  unfold UpdPayloadCacheResponse_Bytes, PutUint32.
  rewrite (collect_ok _ framed)
    by (apply Forall_forall; intros e _; apply UpdPayloadEntry_Bytes_eq).
  cbn [bind app]. cbv zeta.
  set (body := concat (map framed (RespEntries r))).
  set (hdr := le_encode 4 (RespNumEntries r)).
  assert (Hh : length hdr = 4%nat) by apply le_encode_length.
  pose proof (len_nonneg body) as Hl.
  replace (0 + len body + 4) with (4 + len body) by lia.
  rewrite make_app by lia.
  change (make 4 ++ make (len body)) with ([] ++ make 4 ++ make (len body)).
  rewrite (put_range 4 [] (make 4) (make (len body))) by reflexivity.
  fold hdr.
  rewrite splice_app_mid by (reflexivity || (rewrite length_make; lia)).
  cbn [app].
  replace (0 + 4) with (len hdr) by (unfold len; lia).
  apply put_entries_eq.
Qed.

Lemma UpdPayloadCacheRequest_Bytes_ok (r : UpdPayloadCacheRequest Contact) :
  Forall (fun e => 4 <= len (ContactBytes (Source e))) (ReqEntries r) ->
  UpdPayloadCacheRequest_Bytes r
  = Ret (le_encode 4 (ReqNumEntries r)
         ++ concat (map (fun e => le_encode 8 (SeqCounter e)
                                  ++ firstn (length (ContactBytes (Source e)) - 4)
                                            (ContactBytes (Source e)))
                        (ReqEntries r))).
Proof.
  intros Hall.
  unfold UpdPayloadCacheRequest_Bytes, PutUint32.
  erewrite collect_ok; cycle 1.
  { eapply Forall_impl; [|exact Hall]. intros e He. cbv beta in He.
    rewrite UpdRequestCacheEntry_Bytes_eq.
    destruct (len (ContactBytes (Source e)) <? 4) eqn:E; [lia|reflexivity]. }
  cbn [bind app]. cbv zeta.
  match goal with |- context [concat ?l] => set (body := concat l) end.
  set (hdr := le_encode 4 (ReqNumEntries r)).
  assert (Hh : length hdr = 4%nat) by apply le_encode_length.
  pose proof (len_nonneg body) as Hl.
  replace (0 + len body + 4) with (4 + len body) by lia.
  rewrite make_app by lia.
  change (make 4 ++ make (len body)) with ([] ++ make 4 ++ make (len body)).
  rewrite (put_from 4 [] (make 4) (make (len body))) by reflexivity.
  fold hdr.
  rewrite splice_app
    by (reflexivity || (rewrite !length_app, !length_make; lia)).
  cbn [app].
  replace (0 + 4) with (len hdr) by (unfold len; lia).
  apply put_entries_eq.
Qed.

Lemma UpdPayloadCacheRequest_Bytes_panics (r : UpdPayloadCacheRequest Contact) :
  Exists (fun e => len (ContactBytes (Source e)) < 4) (ReqEntries r) ->
  UpdPayloadCacheRequest_Bytes r = Panic.
Proof.
  intros Hex. unfold UpdPayloadCacheRequest_Bytes.
  rewrite collect_panic; [reflexivity|].
  eapply Exists_impl; [|exact Hex]. intros e He. cbv beta in He.
  rewrite UpdRequestCacheEntry_Bytes_eq.
  destruct (len (ContactBytes (Source e)) <? 4) eqn:E; [reflexivity|lia].
Qed.

Lemma UpdPayload_Bytes_eq (u : UpdPayload) :
  0 <= DataLength u ->
  UpdPayload_Bytes u =
  if DataLength u <=? cap (Data u)
  then Ret (Operation u :: le_encode 2 (DataLength u)
            ++ firstn (Z.to_nat (DataLength u))
                      (elems (Data u) ++ spare (Data u)))
  else Panic.
Proof.
  intros Hdl. unfold UpdPayload_Bytes, PutUint16, store. cbv zeta.
  set (dl := DataLength u) in *.
  set (hdr := le_encode 2 dl).
  assert (Hh : length hdr = 2%nat) by apply le_encode_length.
  rewrite len_make by lia.
  destruct (0 <=? 0) eqn:E0; [|lia].
  destruct (0 <? 3 + dl) eqn:E1; [|lia].
  cbn [andb bind].
  replace (3 + dl) with (1 + (2 + dl)) by lia.
  rewrite (make_app 1), (make_app 2) by lia.
  change (make 1 ++ make 2 ++ make dl)
    with ([] ++ make 1 ++ make 2 ++ make dl).
  rewrite splice_app_mid by reflexivity.
  cbn [app].
  change (Operation u :: make 2 ++ make dl)
    with ([Operation u] ++ make 2 ++ make dl).
  rewrite (put_range 2 [Operation u] (make 2) (make dl)) by reflexivity.
  fold hdr.
  rewrite splice_app_mid by (reflexivity || (rewrite length_make; lia)).
  rewrite (app_assoc [Operation u] hdr).
  rewrite slice_from_app by (rewrite len_app; unfold len; cbn [length]; lia).
  cbn [bind].
  unfold slice_to.
  destruct (0 <=? dl) eqn:E2; [|lia].
  destruct (dl <=? cap (Data u)) eqn:E3; cbn [andb bind]; [|reflexivity].
  rewrite copy_exact.
  - rewrite splice_app.
    + now rewrite <- app_assoc.
    + rewrite len_app. unfold len. cbn [length]. lia.
    + rewrite length_make, length_firstn, length_app.
      unfold cap, len in *. lia.
  - rewrite length_make, length_firstn, length_app.
    unfold cap, len in *. lia.
Qed.

End Encoders.

(** ** The envelope and list decoders in closed form *)

Lemma index_ok (buf : bytes) (i : Z) :
  0 <= i < len buf -> index buf i = Ret (nth (Z.to_nat i) buf x00).
Proof.
  intros H. unfold index.
  destruct (0 <=? i) eqn:E1; [|lia].
  destruct (i <? len buf) eqn:E2; [|lia].
  cbn [andb].
  destruct (nth_error buf (Z.to_nat i)) as [b|] eqn:E.
  - now rewrite (nth_error_nth _ _ _ E).
  - apply nth_error_None in E. unfold len in H. lia.
Qed.

Lemma ParseUpdPayload_eq (buf : bytes) :
  ParseUpdPayload buf =
  Ret (if len buf <? 3 then inr "payload invalid"%string
       else if len buf - 3 <? head_uint 2 (skipn 1 buf)
       then inr "payload invalid"%string
       else inl {| Operation := nth 0 buf x00;
                   DataLength := head_uint 2 (skipn 1 buf);
                   Data :=
                     {| elems := firstn (Z.to_nat (head_uint 2 (skipn 1 buf)))
                                        (skipn 3 buf);
                        spare := skipn (Z.to_nat (3 + head_uint 2 (skipn 1 buf)))
                                       buf |} |}).
Proof.
  unfold ParseUpdPayload, Uint16, head_uint. cbv zeta.
  destruct (len buf <? 3) eqn:E3; [reflexivity|].
  rewrite index_ok by lia. cbn [bind].
  change (0 + 1 + 2) with (0 + 1 + Z.of_nat 2).
  rewrite read_at by (cbn; lia).
  change (Z.to_nat (0 + 1)) with 1%nat.
  change (0 + 1 + Z.of_nat 2) with 3.
  set (dl := le_decode (firstn 2 (skipn 1 buf))).
  pose proof (le_decode_firstn_range 2 (skipn 1 buf)) as Hr. fold dl in Hr.
  destruct (len buf - 3 <? dl) eqn:Ed; [reflexivity|].
  destruct (len buf <? 3 + dl) eqn:Ed'; [lia|].
  rewrite slice_ok by lia. cbn [bind].
  replace (3 + dl - 3) with dl by lia.
  reflexivity.
Qed.

Section ListDecoders.

Context {Contact Message : Type}.
Context {CC : ContactCodec Contact} {MC : MessageCodec Message}.

Lemma ParsePayloadEntry_total (buf : bytes) :
  exists m rest, ParsePayloadEntry buf = Ret (m, rest) /\ len rest <= len buf.
Proof.
  rewrite ParsePayloadEntry_eq.
  pose proof (len_nonneg buf) as Hb.
  destruct (len buf <? 4); [exists None, []; split; [reflexivity|exact Hb]|].
  destruct (len buf <? 4 + head_uint 4 buf);
    [exists None, []; split; [reflexivity|exact Hb]|].
  eexists _, _. split; [reflexivity|].
  unfold len. rewrite length_skipn. lia.
Qed.

Lemma parseable_prefix_stuck (n : nat) (buf r : bytes) :
  ParsePayloadEntry buf = Ret (None, r) -> parseable_prefix n buf = [].
Proof.
  intros H. destruct n; cbn [parseable_prefix]; [reflexivity|].
  now rewrite H.
Qed.

(** An iteration at a cursor inside the buffer, by what [ParsePayloadEntry]
    returns there. *)
Lemma response_iter_eq (st : RespLoop Message) :
  0 <= resp_idx st <= len (resp_buf st) ->
  response_iter st =
  '(m, rbuf) <- ParsePayloadEntry (resp_remaining st) ;;
  match m with
  | None => Ret st
  | Some e => Ret {| resp_buf := rbuf; resp_idx := 0;
                     resp_entries := resp_entries st ++ [e] |}
  end.
Proof.
  intros H. unfold response_iter, resp_remaining.
  now rewrite slice_from_ok by exact H.
Qed.

Lemma response_loop_prefix (n : nat) (st : RespLoop Message) :
  0 <= resp_idx st <= len (resp_buf st) ->
  exists st',
    response_loop n st = Ret st' /\
    resp_entries st' =
    resp_entries st ++ parseable_prefix n (resp_remaining st).
Proof.
  revert st. induction n as [|n IH]; intros st Hidx.
  - exists st. split; [reflexivity|]. cbn. now rewrite app_nil_r.
  - cbn [response_loop parseable_prefix].
    rewrite response_iter_eq by exact Hidx.
    destruct (ParsePayloadEntry_total (resp_remaining st))
      as (m & rest & Hp & _).
    rewrite Hp. cbn [bind].
    destruct m as [e|]; cbn [bind].
    + destruct (IH {| resp_buf := rest; resp_idx := 0;
                      resp_entries := resp_entries st ++ [e] |})
        as (st' & Hl & He).
      { cbn. pose proof (len_nonneg rest). lia. }
      exists st'. split; [exact Hl|].
      rewrite He. cbn. now rewrite <- app_assoc.
    + destruct (IH st Hidx) as (st' & Hl & He).
      exists st'. split; [exact Hl|].
      rewrite He, (parseable_prefix_stuck n _ _ Hp). reflexivity.
Qed.

Lemma ParsePayloadCacheResponse_eq (buf : bytes) :
  ParsePayloadCacheResponse buf =
  Ret (if len buf <? 4 then None
       else Some {| RespNumEntries := head_uint 4 buf;
                    RespEntries :=
                      parseable_prefix (Z.to_nat (head_uint 4 buf))
                                       (skipn 4 buf) |}).
Proof.
  unfold ParsePayloadCacheResponse, Uint32. cbv zeta.
  destruct (len buf <? 4) eqn:E4; [reflexivity|].
  change (0 + 4) with (0 + Z.of_nat 4).
  rewrite read_at by (cbn; lia).
  change (skipn (Z.to_nat 0) buf) with buf. fold (head_uint 4 buf).
  destruct (response_loop_prefix (Z.to_nat (head_uint 4 buf))
              {| resp_buf := buf; resp_idx := 0 + Z.of_nat 4;
                 resp_entries := [] |}) as (st' & Hl & He).
  { cbn. lia. }
  rewrite Hl. cbn [bind]. rewrite He. reflexivity.
Qed.

Lemma ParseCacheEntry_total (buf : bytes) :
  exists m rest, ParseCacheEntry buf = Ret (m, rest).
Proof.
  rewrite ParseCacheEntry_eq.
  match goal with |- context [Ret ?p] => destruct p as [m rest] end.
  now exists m, rest.
Qed.

Lemma ParseCacheEntry_short (buf : bytes) :
  len buf < 9 -> ParseCacheEntry buf = Ret (None, []).
Proof.
  intros H. rewrite ParseCacheEntry_eq.
  destruct (len buf <? 9) eqn:E; [reflexivity|lia].
Qed.

Lemma request_iter_total (st : ReqLoop Contact) :
  exists st' f, request_iter st = Ret (st', f).
Proof.
  unfold request_iter.
  destruct (ParseCacheEntry_total (req_buf st)) as (m & rest & Hp).
  rewrite Hp. cbn [bind].
  destruct m as [c|]; [|eexists _, _; reflexivity].
  destruct (len rest =? 0); eexists _, _; reflexivity.
Qed.

Lemma request_loop_total (n : nat) (st : ReqLoop Contact) :
  exists st', request_loop n st = Ret st'.
Proof.
  revert st. induction n as [|n IH]; intros st; cbn [request_loop].
  - now exists st.
  - destruct (request_iter_total st) as (st' & f & Hi). rewrite Hi.
    cbn [bind]. destruct f; [apply IH|now exists st'].
Qed.

(** Once an entry fails to parse, the rest of the iterations change
    nothing. *)
Lemma request_loop_stuck (n : nat) (st : ReqLoop Contact) (r : bytes) :
  ParseCacheEntry (req_buf st) = Ret (None, r) ->
  request_loop n st = Ret st.
Proof.
  intros Hp. induction n as [|n IH]; cbn [request_loop]; [reflexivity|].
  unfold request_iter. rewrite Hp. cbn [bind]. exact IH.
Qed.

Lemma present_nil_inv (es : list (UpdRequestCacheEntry Contact)) :
  present [] es -> es = [].
Proof.
  intros H. inversion H as [tail r Hp|buf rest e es' Hp Hrest]; subst.
  - reflexivity.
  - rewrite ParseCacheEntry_short in Hp by (cbn; lia). discriminate.
Qed.

Lemma request_loop_present (buf : bytes)
    (es : list (UpdRequestCacheEntry Contact)) :
  present buf es ->
  forall (n : nat) (acc : list (UpdRequestCacheEntry Contact)),
    (length es <= n)%nat ->
    exists b,
      request_loop n {| req_buf := buf; req_entries := acc |}
      = Ret {| req_buf := b; req_entries := acc ++ es |}.
Proof.
  induction 1 as [tail r Hp|buf rest e es Hp Hrest IH]; intros n acc Hn.
  - exists tail. rewrite app_nil_r.
    now apply (request_loop_stuck n _ r).
  - destruct n as [|n]; [cbn in Hn; lia|].
    cbn [request_loop]. unfold request_iter. cbn [req_buf req_entries].
    rewrite Hp. cbn [bind].
    destruct (len rest =? 0) eqn:E0; cbn [bind].
    + assert (rest = []) as ->
        by (destruct rest; [reflexivity|rewrite len_cons in E0;
            pose proof (len_nonneg rest); lia]).
      apply present_nil_inv in Hrest. subst es.
      now exists [].
    + destruct (IH n (acc ++ [e])) as (b & Hb); [cbn in Hn; lia|].
      exists b. rewrite Hb. now rewrite <- app_assoc.
Qed.

Lemma ParsePayloadCacheRequest_shape (buf : bytes) :
  ParsePayloadCacheRequest buf =
  if len buf <? 4 then Ret None
  else
    st <- request_loop (Z.to_nat (head_uint 4 buf))
            {| req_buf := skipn 4 buf; req_entries := [] |} ;;
    Ret (Some {| ReqNumEntries := head_uint 4 buf;
                 ReqEntries := req_entries st |}).
Proof.
  unfold ParsePayloadCacheRequest, Uint32. cbv zeta.
  destruct (len buf <? 4) eqn:E4; [reflexivity|].
  change (0 + 4) with (0 + Z.of_nat 4).
  rewrite read_at by (cbn; lia).
  change (skipn (Z.to_nat 0) buf) with buf. fold (head_uint 4 buf).
  rewrite slice_from_ok by (cbn; lia). cbn [bind].
  reflexivity.
Qed.

End ListDecoders.

(** ** The envelope *)

(** C6. [ParseUpdPayload] returns an error exactly when the buffer has
    fewer than three bytes or the little-endian number in its bytes 1 and 2
    is larger than the number of bytes behind the three-byte header. When it
    returns a payload, that payload has the first byte as operation, the
    declared number as length and exactly that many bytes of data, taken
    behind the header. A three-byte buffer that declares length zero decodes
    to empty data; every two-byte buffer is an error. The decoder never
    panics. *)
Theorem ParseUpdPayload_error_iff (buf : bytes) :
  returns (ParseUpdPayload buf) /\
  ((exists e, ParseUpdPayload buf = Ret (inr e)) <->
   (len buf < 3 \/ len buf - 3 < head_uint 2 (skipn 1 buf))) /\
  (forall u, ParseUpdPayload buf = Ret (inl u) ->
     Operation u = nth 0 buf x00 /\
     DataLength u = head_uint 2 (skipn 1 buf) /\
     elems (Data u) = firstn (Z.to_nat (DataLength u)) (skipn 3 buf) /\
     len (elems (Data u)) = DataLength u) /\
  (forall op, ParseUpdPayload [op; x00; x00]
     = Ret (inl {| Operation := op; DataLength := 0;
                   Data := {| elems := []; spare := [] |} |})) /\
  (forall a b, exists e, ParseUpdPayload [a; b] = Ret (inr e)).
Proof.
  rewrite ParseUpdPayload_eq.
  pose proof (le_decode_firstn_range 2 (skipn 1 buf)) as Hr.
  fold (head_uint 2 (skipn 1 buf)) in Hr.
  split; [eexists; reflexivity|].
  split; [|split; [|split]].
  - destruct (len buf <? 3) eqn:E3.
    + split; [intros _; left; lia|intros _; eexists; reflexivity].
    + destruct (len buf - 3 <? head_uint 2 (skipn 1 buf)) eqn:Ed.
      * split; [intros _; right; lia|intros _; eexists; reflexivity].
      * split; [intros [e He]; discriminate|lia].
  - intros u Hu.
    destruct (len buf <? 3) eqn:E3; [discriminate|].
    destruct (len buf - 3 <? head_uint 2 (skipn 1 buf)) eqn:Ed;
      [discriminate|].
    injection Hu as Hu. subst u.
    split; [reflexivity|]. split; [reflexivity|]. split; [reflexivity|].
    change (len (firstn (Z.to_nat (head_uint 2 (skipn 1 buf))) (skipn 3 buf))
            = head_uint 2 (skipn 1 buf)).
    rewrite len_firstn; [lia|]. rewrite len_skipn; lia.
  - intros op. rewrite ParseUpdPayload_eq. reflexivity.
  - intros a b. rewrite ParseUpdPayload_eq. eexists. reflexivity.
Qed.

(** Encoding an envelope whose [Data] has at least [DataLength] bytes, and
    parsing what was encoded. *)
Lemma envelope_kept (u : UpdPayload) :
  uint16 (DataLength u) ->
  DataLength u <= len (elems (Data u)) ->
  let kept := firstn (Z.to_nat (DataLength u)) (elems (Data u)) in
  UpdPayload_Bytes u
    = Ret (Operation u :: le_encode 2 (DataLength u) ++ kept) /\
  ParseUpdPayload (Operation u :: le_encode 2 (DataLength u) ++ kept)
    = Ret (inl {| Operation := Operation u;
                  DataLength := DataLength u;
                  Data := {| elems := kept; spare := [] |} |}) /\
  (DataLength u < len (elems (Data u)) -> kept <> elems (Data u)).
Proof.
  intros Hr Hle kept. unfold uint16 in Hr.
  assert (Hk : len kept = DataLength u)
    by (subst kept; rewrite len_firstn; lia).
  split; [|split].
  - rewrite UpdPayload_Bytes_eq by lia.
    pose proof (len_nonneg (spare (Data u))).
    destruct (DataLength u <=? cap (Data u)) eqn:E;
      [|unfold cap in E; lia].
    rewrite firstn_app.
    replace (Z.to_nat (DataLength u) - length (elems (Data u)))%nat
      with 0%nat by (unfold len in Hle; lia).
    now rewrite firstn_0, app_nil_r.
  - rewrite ParseUpdPayload_eq.
    set (hdr := le_encode 2 (DataLength u)).
    assert (Hh : length hdr = 2%nat) by apply le_encode_length.
    assert (Hlen : len (Operation u :: hdr ++ kept) = 3 + DataLength u)
      by (rewrite len_cons, len_app; unfold len at 1; lia).
    assert (Hd : head_uint 2 (skipn 1 (Operation u :: hdr ++ kept))
                 = DataLength u).
    { unfold head_uint. cbn [skipn].
      rewrite firstn_app_exact by lia.
      apply le_decode_encode_small. cbn. lia. }
    rewrite Hd, Hlen.
    destruct (3 + DataLength u <? 3) eqn:E3; [lia|].
    destruct (3 + DataLength u - 3 <? DataLength u) eqn:E4; [lia|].
    change (skipn 3 (Operation u :: hdr ++ kept))
      with (skipn 2 (hdr ++ kept)).
    rewrite skipn_app_exact by lia.
    rewrite skipn_all2 by (unfold len in Hlen; lia).
    rewrite firstn_all2 by (unfold len in Hk; lia).
    reflexivity.
  - intros Hlt Heq. rewrite Heq in Hk. lia.
Qed.

(** C10. [UpdPayload.Bytes] writes the operation, the declared length and
    the first [DataLength] bytes of [Data], and nothing of [Data] behind
    them; parsing the result gives back [Data] cut to [DataLength] bytes,
    which is not the [Data] that was encoded when that was longer. *)
Theorem UpdPayload_Bytes_truncates (u : UpdPayload) :
  uint16 (DataLength u) ->
  DataLength u <= len (elems (Data u)) ->
  let kept := firstn (Z.to_nat (DataLength u)) (elems (Data u)) in
  UpdPayload_Bytes u
    = Ret (Operation u :: le_encode 2 (DataLength u) ++ kept) /\
  ParseUpdPayload (Operation u :: le_encode 2 (DataLength u) ++ kept)
    = Ret (inl {| Operation := Operation u;
                  DataLength := DataLength u;
                  Data := {| elems := kept; spare := [] |} |}) /\
  (DataLength u < len (elems (Data u)) -> kept <> elems (Data u)).
Proof.
  exact (envelope_kept u).
Qed.

Lemma UpdPayload_Bytes_truncates_witness :
  UpdPayload_Bytes Sample.underlong = Ret [x01; x02; x00; x0a; x0b] /\
  ParseUpdPayload [x01; x02; x00; x0a; x0b]
    = Ret (inl {| Operation := x01; DataLength := 2;
                  Data := {| elems := [x0a; x0b]; spare := [] |} |}) /\
  [x0a; x0b] <> [x0a; x0b; x0c; x0d].
Proof.
  assert (H1 : uint16 (DataLength Sample.underlong))
    by (unfold uint16; cbn; lia).
  assert (H2 : DataLength Sample.underlong <= len (elems (Data Sample.underlong)))
    by (cbn; lia).
  destruct (UpdPayload_Bytes_truncates Sample.underlong H1 H2)
    as (Hb & Hp & Hn).
  split; [exact Hb|]. split; [exact Hp|].
  apply Hn. cbn. lia.
Defined.

(** ** The list decoders and the encoders *)

Section Claims.

Context {Contact Message : Type}.
Context {CC : ContactCodec Contact} {MC : MessageCodec Message}.

Lemma decoders_return (buf : bytes) :
  returns (ParsePayloadEntry buf) /\
  returns (ParseCacheEntry buf) /\
  returns (ParsePayloadCacheResponse buf) /\
  returns (ParsePayloadCacheRequest buf) /\
  returns (ParseUpdPayload buf).
Proof.
  unfold returns. repeat split.
  - rewrite ParsePayloadEntry_eq. eexists; reflexivity.
  - rewrite ParseCacheEntry_eq. eexists; reflexivity.
  - rewrite ParsePayloadCacheResponse_eq. eexists; reflexivity.
  - rewrite ParsePayloadCacheRequest_shape.
    destruct (len buf <? 4); [eexists; reflexivity|].
    destruct (request_loop_total (Z.to_nat (head_uint 4 buf))
                {| req_buf := skipn 4 buf; req_entries := [] |}) as [st' Hl].
    rewrite Hl. eexists; reflexivity.
  - rewrite ParseUpdPayload_eq. eexists; reflexivity.
Qed.

(** A parsed response entry takes its four-byte prefix and the declared
    number of bytes off the buffer. *)
Lemma ParsePayloadEntry_advances (buf rest : bytes)
    (e : UpdPayloadEntry Message) :
  ParsePayloadEntry buf = Ret (Some e, rest) ->
  0 <= Length e /\ len rest + 4 + Length e = len buf.
Proof.
  rewrite ParsePayloadEntry_eq. intros H.
  pose proof (le_decode_firstn_range 4 buf) as Hr.
  fold (head_uint 4 buf) in Hr.
  destruct (len buf <? 4) eqn:E4; [discriminate|].
  destruct (len buf <? 4 + head_uint 4 buf) eqn:EL; [discriminate|].
  destruct (ParseMessage (skipn 4 buf)) as [msg|]; [|discriminate].
  unfold option_map in H.
  assert (He : e = {| Length := head_uint 4 buf; EntryMessage := msg |})
    by congruence.
  assert (Hrest : rest = skipn (Z.to_nat (4 + head_uint 4 buf)) buf)
    by congruence.
  subst e rest. change (Length _) with (head_uint 4 buf).
  split; [lia|]. rewrite len_skipn; lia.
Qed.

Lemma parseable_prefix_length (n : nat) (buf : bytes) :
  (length (parseable_prefix n buf) <= n)%nat.
Proof.
  revert buf. induction n as [|n IH]; intros buf; cbn [parseable_prefix].
  - cbn. lia.
  - destruct (ParsePayloadEntry buf) as [[[e|] rest]|]; cbn [length];
      try lia.
    specialize (IH rest). lia.
Qed.

Lemma request_loop_length (n : nat) (st st' : ReqLoop Contact) :
  request_loop n st = Ret st' ->
  (length (req_entries st') <= length (req_entries st) + n)%nat.
Proof.
  revert st. induction n as [|n IH]; intros st; cbn [request_loop].
  - intros H. injection H as <-. lia.
  - unfold request_iter.
    destruct (ParseCacheEntry (req_buf st)) as [[[c|] rbuf]|];
      cbn [bind]; [| |discriminate].
    + destruct (len rbuf =? 0); cbn [bind].
      * intros H. injection H as <-. cbn [req_entries].
        rewrite length_app. cbn. lia.
      * intros H. apply IH in H. cbn [req_entries] in H.
        rewrite length_app in H. cbn in H. lia.
    + intros H. apply IH in H. lia.
Qed.

(** C2, amended. The list decoders never return an error and never panic.
    For a buffer of at least four bytes each returns a struct with the
    declared count and a list of at most that many entries; for a shorter
    buffer each returns nil, with no list at all. *)
Theorem list_decoders_result (buf : bytes) :
  (len buf < 4 /\
   ParsePayloadCacheResponse buf = Ret None /\
   ParsePayloadCacheRequest buf = Ret None)
  \/
  (4 <= len buf /\
   (exists r, ParsePayloadCacheResponse buf = Ret (Some r) /\
              RespNumEntries r = head_uint 4 buf /\
              len (RespEntries r) <= RespNumEntries r) /\
   (exists q, ParsePayloadCacheRequest buf = Ret (Some q) /\
              ReqNumEntries q = head_uint 4 buf /\
              len (ReqEntries q) <= ReqNumEntries q)).
Proof.
  rewrite ParsePayloadCacheResponse_eq, ParsePayloadCacheRequest_shape.
  pose proof (le_decode_firstn_range 4 buf) as Hr.
  fold (head_uint 4 buf) in Hr.
  destruct (len buf <? 4) eqn:E4.
  - left. split; [lia|]. split; reflexivity.
  - right. split; [lia|]. split.
    + eexists. split; [reflexivity|]. cbn [RespNumEntries RespEntries].
      split; [reflexivity|].
      pose proof (parseable_prefix_length (Z.to_nat (head_uint 4 buf))
                    (skipn 4 buf)).
      unfold len. lia.
    + destruct (request_loop_total (Z.to_nat (head_uint 4 buf))
                  {| req_buf := skipn 4 buf; req_entries := [] |})
        as [st' Hl].
      rewrite Hl. cbn [bind]. eexists. split; [reflexivity|].
      cbn [ReqNumEntries ReqEntries]. split; [reflexivity|].
      apply request_loop_length in Hl.
      change (length (req_entries {| req_buf := skipn 4 buf;
                                     req_entries := [] |}))
        with 0%nat in Hl.
      unfold len. lia.
Qed.

(** C4, amended. Every decoder returns on every buffer: none panics or
    reads out of bounds. [UpdPayloadEntry.Bytes] and
    [UpdPayloadCacheResponse.Bytes] return on every value.
    [UpdPayload.Bytes] returns exactly when [DataLength] is at most the
    capacity of [Data], so whenever it is at most its length; otherwise the
    slice [u.Data[:u.DataLength]] panics. *)
Theorem decoders_total_encoders_guarded :
  (forall buf : bytes,
     returns (ParsePayloadEntry buf) /\
     returns (ParseCacheEntry buf) /\
     returns (ParsePayloadCacheResponse buf) /\
     returns (ParsePayloadCacheRequest buf) /\
     returns (ParseUpdPayload buf)) /\
  (forall e : UpdPayloadEntry Message, returns (UpdPayloadEntry_Bytes e)) /\
  (forall r : UpdPayloadCacheResponse Message,
     returns (UpdPayloadCacheResponse_Bytes r)) /\
  (forall u : UpdPayload,
     uint16 (DataLength u) ->
     (returns (UpdPayload_Bytes u) <-> DataLength u <= cap (Data u)) /\
     (DataLength u <= len (elems (Data u)) -> returns (UpdPayload_Bytes u)) /\
     (cap (Data u) < DataLength u -> UpdPayload_Bytes u = Panic)).
Proof.
  split; [exact decoders_return|].
  split; [intros e; rewrite UpdPayloadEntry_Bytes_eq; eexists; reflexivity|].
  split; [intros r; rewrite UpdPayloadCacheResponse_Bytes_eq;
          eexists; reflexivity|].
  intros u Hu. unfold uint16 in Hu.
  rewrite UpdPayload_Bytes_eq by lia.
  pose proof (len_nonneg (spare (Data u))) as Hs.
  destruct (DataLength u <=? cap (Data u)) eqn:E.
  - split; [split; [lia|intros _; eexists; reflexivity]|].
    split; [intros _; eexists; reflexivity|lia].
  - split; [split; [intros [a Ha]; discriminate|lia]|].
    split; [unfold cap in E; lia|reflexivity].
Qed.

(** C9. In the loop of [ParsePayloadCacheResponse] an iteration whose
    [ParsePayloadEntry] returns no entry leaves the loop's variables as
    they were, the buffer and the cursor among them, and so does every
    iteration after it. The list that is returned is therefore the run of
    entries that parse one after the other from the start of the body, up
    to the declared count and up to the first failure; nothing behind a
    failure is returned. *)
Theorem response_keeps_parseable_prefix :
  (forall (st : RespLoop Message) (w r : bytes),
     slice_from (resp_buf st) (resp_idx st) = Ret w ->
     ParsePayloadEntry w = Ret (None, r) ->
     response_iter st = Ret st) /\
  (forall (n : nat) (st : RespLoop Message) (w r : bytes),
     slice_from (resp_buf st) (resp_idx st) = Ret w ->
     ParsePayloadEntry w = Ret (None, r) ->
     response_loop n st = Ret st) /\
  (forall buf : bytes,
     ParsePayloadCacheResponse buf =
     Ret (if len buf <? 4 then None
          else Some {| RespNumEntries := head_uint 4 buf;
                       RespEntries :=
                         parseable_prefix (Z.to_nat (head_uint 4 buf))
                                          (skipn 4 buf) |})).
Proof.
  assert (Hiter : forall (st : RespLoop Message) (w r : bytes),
             slice_from (resp_buf st) (resp_idx st) = Ret w ->
             ParsePayloadEntry w = Ret (None, r) ->
             response_iter st = Ret st).
  { intros st w r Hw Hp. unfold response_iter.
    rewrite Hw. cbn [bind]. rewrite Hp. reflexivity. }
  split; [exact Hiter|]. split; [|exact ParsePayloadCacheResponse_eq].
  intros n st w r Hw Hp.
  induction n as [|n IH]; cbn [response_loop]; [reflexivity|].
  rewrite (Hiter st w r Hw Hp). cbn [bind]. exact IH.
Qed.

(** C7. A request buffer that declares more entries than it holds: the
    decoder returns the entries that are present, in order, and no error.
    The entries present are those that parse one after the other from the
    start of the body, up to the end of the buffer or to bytes that are no
    complete entry. *)
Theorem request_count_exceeds_entries (n : Z) (body : bytes)
    (es : list (UpdRequestCacheEntry Contact)) :
  uint32 n ->
  present body es ->
  len es < n ->
  ParsePayloadCacheRequest (le_encode 4 n ++ body)
  = Ret (Some {| ReqNumEntries := n; ReqEntries := es |}).
Proof.
  intros Hn Hpres Hlt. unfold uint32 in Hn.
  rewrite ParsePayloadCacheRequest_shape.
  assert (Hh : length (le_encode 4 n) = 4%nat) by apply le_encode_length.
  pose proof (len_nonneg body) as Hb.
  assert (Hhead : head_uint 4 (le_encode 4 n ++ body) = n).
  { unfold head_uint. rewrite firstn_app_exact by lia.
    apply le_decode_encode_small. cbn. lia. }
  rewrite Hhead, len_app, skipn_app_exact by lia.
  destruct (len (le_encode 4 n) + len body <? 4) eqn:E4;
    [unfold len in *; lia|].
  destruct (request_loop_present body es Hpres (Z.to_nat n) [])
    as [b Hl]; [unfold len in Hlt; lia|].
  rewrite Hl. reflexivity.
Qed.

(** C8, amended. Every decoder returns on every buffer, and both loops
    return after the declared number of iterations at most. An iteration of
    [ParsePayloadCacheRequest] whose entry does not parse leaves the buffer
    where it was: [ParseCacheEntry] hands back nothing to move on to. An
    iteration of [ParsePayloadCacheResponse] that appends an entry moves
    the cursor forward by the four bytes of the prefix and the declared
    length. *)
Theorem decoders_return_and_cursor :
  (forall buf : bytes,
     returns (ParsePayloadEntry buf) /\
     returns (ParseCacheEntry buf) /\
     returns (ParsePayloadCacheResponse buf) /\
     returns (ParsePayloadCacheRequest buf) /\
     returns (ParseUpdPayload buf)) /\
  (forall (n : nat) (st : RespLoop Message),
     0 <= resp_idx st <= len (resp_buf st) -> returns (response_loop n st)) /\
  (forall (n : nat) (st : ReqLoop Contact), returns (request_loop n st)) /\
  (forall (st : ReqLoop Contact) (r : bytes),
     ParseCacheEntry (req_remaining st) = Ret (None, r) ->
     request_iter st = Ret (st, Next)) /\
  (forall (st : RespLoop Message) (e : UpdPayloadEntry Message) (rest : bytes),
     0 <= resp_idx st <= len (resp_buf st) ->
     ParsePayloadEntry (resp_remaining st) = Ret (Some e, rest) ->
     exists st',
       response_iter st = Ret st' /\
       resp_entries st' = resp_entries st ++ [e] /\
       len (resp_remaining st') + 4 + Length e = len (resp_remaining st) /\
       len (resp_remaining st') < len (resp_remaining st)).
Proof.
  split; [exact decoders_return|].
  split; [|split; [|split]].
  - intros n st Hidx.
    destruct (response_loop_prefix n st Hidx) as (st' & Hl & _).
    now exists st'.
  - intros n st. apply request_loop_total.
  - intros st r Hp. unfold request_iter.
    unfold req_remaining in Hp. now rewrite Hp.
  - intros st e rest Hidx Hp.
    rewrite response_iter_eq by exact Hidx. rewrite Hp. cbn [bind].
    eexists. split; [reflexivity|]. split; [reflexivity|].
    apply ParsePayloadEntry_advances in Hp. destruct Hp as [H0 Hlen].
    change (resp_remaining {| resp_buf := rest; resp_idx := 0;
                              resp_entries := resp_entries st ++ [e] |})
      with rest.
    lia.
Qed.

(** C3, amended. The four-byte count that [Bytes] writes is the
    [NumEntries] field of the struct, whatever the length of [Entries]. The
    response encoder returns on every value; the request encoder returns
    when every contact has at least four bytes. *)
Theorem count_field_is_NumEntries
    (r : UpdPayloadCacheResponse Message)
    (q : UpdPayloadCacheRequest Contact) :
  uint32 (RespNumEntries r) ->
  uint32 (ReqNumEntries q) ->
  (exists buf, UpdPayloadCacheResponse_Bytes r = Ret buf /\
               firstn 4 buf = le_encode 4 (RespNumEntries r) /\
               head_uint 4 buf = RespNumEntries r) /\
  (forall buf, UpdPayloadCacheRequest_Bytes q = Ret buf ->
               firstn 4 buf = le_encode 4 (ReqNumEntries q) /\
               head_uint 4 buf = ReqNumEntries q) /\
  (Forall (fun e => 4 <= len (ContactBytes (Source e))) (ReqEntries q) ->
   returns (UpdPayloadCacheRequest_Bytes q)).
Proof.
  intros Hr Hq. unfold uint32 in Hr, Hq.
  assert (Hhead : forall (v : Z) (body : bytes),
             0 <= v < 2 ^ 32 ->
             firstn 4 (le_encode 4 v ++ body) = le_encode 4 v /\
             head_uint 4 (le_encode 4 v ++ body) = v).
  { intros v body Hv. unfold head_uint.
    rewrite firstn_app_exact by (now rewrite le_encode_length).
    split; [reflexivity|]. apply le_decode_encode_small. cbn. lia. }
  split; [|split].
  - rewrite UpdPayloadCacheResponse_Bytes_eq. eexists.
    split; [reflexivity|]. now apply Hhead.
  - intros buf Hbuf.
    destruct (Forall_Exists_dec
                (fun e : UpdRequestCacheEntry Contact =>
                   4 <= len (ContactBytes (Source e)))
                (fun e => Z_le_dec 4 (len (ContactBytes (Source e))))
                (ReqEntries q)) as [Hall|Hex].
    + rewrite UpdPayloadCacheRequest_Bytes_ok in Hbuf by exact Hall.
      injection Hbuf as <-. now apply Hhead.
    + rewrite UpdPayloadCacheRequest_Bytes_panics in Hbuf; [discriminate|].
      eapply Exists_impl; [|exact Hex]. cbv beta. intros e He. lia.
  - intros Hall. rewrite UpdPayloadCacheRequest_Bytes_ok by exact Hall.
    eexists. reflexivity.
Qed.

Lemma ParsePayloadEntry_framed (e : UpdPayloadEntry Message) (tail : bytes) :
  (forall m rest, ParseMessage (MessageBytes m ++ rest) = Some m) ->
  uint32 (Length e) ->
  length_agrees e ->
  ParsePayloadEntry (framed e ++ tail) = Ret (Some e, tail).
Proof.
  intros Hcodec Hu Hagree. unfold uint32 in Hu. unfold length_agrees in Hagree.
  rewrite ParsePayloadEntry_eq. unfold framed.
  destruct e as [l m]. cbn [Length EntryMessage] in *.
  set (msb := MessageBytes m) in *.
  set (hdr := le_encode 4 (len msb)).
  assert (Hh : length hdr = 4%nat) by apply le_encode_length.
  pose proof (len_nonneg tail) as Ht.
  assert (Hlen : len ((hdr ++ msb) ++ tail) = 4 + len msb + len tail)
    by (rewrite !len_app; unfold len at 1; lia).
  assert (Hhead : head_uint 4 ((hdr ++ msb) ++ tail) = len msb).
  { unfold head_uint. rewrite <- app_assoc.
    rewrite firstn_app_exact by lia.
    apply le_decode_encode_small. cbn. lia. }
  rewrite Hhead, Hlen.
  destruct (4 + len msb + len tail <? 4) eqn:E4; [lia|].
  destruct (4 + len msb + len tail <? 4 + len msb) eqn:EL; [lia|].
  rewrite <- (app_assoc hdr msb tail) at 1.
  rewrite (skipn_app_exact 4 hdr) by lia.
  change (ParseMessage (msb ++ tail))
    with (ParseMessage (MessageBytes m ++ tail)).
  rewrite Hcodec. cbn [option_map].
  rewrite skipn_app_exact
    by (rewrite length_app; unfold len; lia).
  now rewrite Hagree.
Qed.

Lemma parseable_prefix_framed (es : list (UpdPayloadEntry Message)) :
  (forall m rest, ParseMessage (MessageBytes m ++ rest) = Some m) ->
  Forall (fun e => uint32 (Length e) /\ length_agrees e) es ->
  parseable_prefix (length es) (concat (map framed es)) = es.
Proof.
  intros Hcodec Hall. induction Hall as [|e es [Hu Ha] _ IH]; [reflexivity|].
  cbn [length map concat parseable_prefix].
  rewrite ParsePayloadEntry_framed by assumption.
  now rewrite IH.
Qed.

(** Three entries of which the second holds bytes [g] that are no message:
    whatever the codec, the first entry alone is returned. *)
Lemma corrupted_second_entry (e1 e3 : UpdPayloadEntry Message) (g : bytes) :
  (forall m rest, ParseMessage (MessageBytes m ++ rest) = Some m) ->
  (forall rest, ParseMessage (g ++ rest) = None) ->
  uint32 (Length e1) -> length_agrees e1 ->
  uint32 (len g) ->
  ParsePayloadCacheResponse
    (le_encode 4 3 ++ framed e1 ++ (le_encode 4 (len g) ++ g) ++ framed e3)
  = Ret (Some {| RespNumEntries := 3; RespEntries := [e1] |}).
Proof.
  intros Hcodec Hbad Hu1 Ha1 Hg. unfold uint32 in Hg.
  rewrite ParsePayloadCacheResponse_eq.
  set (bad := (le_encode 4 (len g) ++ g) ++ framed e3).
  assert (Hhead : head_uint 4 (le_encode 4 3 ++ framed e1 ++ bad) = 3)
    by reflexivity.
  rewrite Hhead, len_app.
  pose proof (len_nonneg (framed e1 ++ bad)) as Hb.
  destruct (len (le_encode 4 3) + len (framed e1 ++ bad) <? 4) eqn:E4;
    [change (len (le_encode 4 3)) with 4 in E4; lia|].
  rewrite skipn_app_exact by reflexivity.
  change (Z.to_nat 3) with 3%nat. cbn [parseable_prefix].
  rewrite ParsePayloadEntry_framed by assumption.
  assert (Hp : ParsePayloadEntry bad = Ret (None, framed e3)).
  { rewrite ParsePayloadEntry_eq. subst bad.
    set (hdr := le_encode 4 (len g)).
    assert (Hh : length hdr = 4%nat) by apply le_encode_length.
    pose proof (len_nonneg (framed e3)) as H3.
    assert (Hlen : len ((hdr ++ g) ++ framed e3)
                   = 4 + len g + len (framed e3))
      by (rewrite !len_app; unfold len at 1; lia).
    assert (Hh4 : head_uint 4 ((hdr ++ g) ++ framed e3) = len g).
    { unfold head_uint. rewrite <- app_assoc.
      rewrite firstn_app_exact by lia.
      apply le_decode_encode_small. cbn. lia. }
    rewrite Hh4, Hlen.
    destruct (4 + len g + len (framed e3) <? 4) eqn:E; [lia|].
    destruct (4 + len g + len (framed e3) <? 4 + len g) eqn:E'; [lia|].
    rewrite <- (app_assoc hdr g (framed e3)) at 1.
    rewrite (skipn_app_exact 4 hdr) by lia.
    rewrite Hbad. cbn [option_map].
    rewrite skipn_app_exact by (rewrite length_app; unfold len; lia).
    reflexivity. }
  rewrite Hp. reflexivity.
Qed.

(** C5, amended. Decoding what was encoded gives back the value, in list
    order, for an envelope whose [DataLength] is the length of [Data]; for
    a response whose [NumEntries] is the length of [Entries] and whose
    entries each carry in [Length] the length of their message's bytes,
    when [ParseMessage] reads a message back from its bytes with anything
    behind them; and for a request with no entries. *)
Theorem roundtrip_envelope_and_response :
  (forall u : UpdPayload,
     uint16 (DataLength u) ->
     DataLength u = len (elems (Data u)) ->
     exists buf u',
       UpdPayload_Bytes u = Ret buf /\
       ParseUpdPayload buf = Ret (inl u') /\
       same_payload u' u) /\
  ((forall m rest, ParseMessage (MessageBytes m ++ rest) = Some m) ->
   forall r : UpdPayloadCacheResponse Message,
     uint32 (RespNumEntries r) ->
     RespNumEntries r = len (RespEntries r) ->
     Forall (fun e => uint32 (Length e) /\ length_agrees e) (RespEntries r) ->
     exists buf,
       UpdPayloadCacheResponse_Bytes r = Ret buf /\
       ParsePayloadCacheResponse buf = Ret (Some r)) /\
  (exists buf,
     UpdPayloadCacheRequest_Bytes
       {| ReqNumEntries := 0;
          ReqEntries := @nil (UpdRequestCacheEntry Contact) |} = Ret buf /\
     ParsePayloadCacheRequest buf
     = Ret (Some {| ReqNumEntries := 0; ReqEntries := [] |})).
Proof.
  split; [|split].
  - intros u Hu Hlen.
    destruct (envelope_kept u Hu) as (Hb & Hp & _); [lia|].
    eexists _, _. split; [exact Hb|]. split; [exact Hp|].
    unfold same_payload. cbn [Operation DataLength Data elems].
    split; [reflexivity|]. split; [reflexivity|].
    rewrite Hlen. unfold len. rewrite Nat2Z.id. apply firstn_all.
  - intros Hcodec r Hn Hcount Hall. unfold uint32 in Hn.
    rewrite UpdPayloadCacheResponse_Bytes_eq.
    eexists. split; [reflexivity|].
    rewrite ParsePayloadCacheResponse_eq.
    set (hdr := le_encode 4 (RespNumEntries r)).
    set (body := concat (map framed (RespEntries r))).
    assert (Hh : length hdr = 4%nat) by apply le_encode_length.
    pose proof (len_nonneg body) as Hb.
    assert (Hhead : head_uint 4 (hdr ++ body) = RespNumEntries r).
    { unfold head_uint. rewrite firstn_app_exact by lia.
      apply le_decode_encode_small. cbn. lia. }
    rewrite Hhead, len_app, skipn_app_exact by lia.
    destruct (len hdr + len body <? 4) eqn:E4; [unfold len in *; lia|].
    replace (Z.to_nat (RespNumEntries r)) with (length (RespEntries r))
      by (rewrite Hcount; unfold len; lia).
    subst body. rewrite parseable_prefix_framed by assumption.
    destruct r; reflexivity.
  - eexists. split; reflexivity.
Qed.

End Claims.

(** ** Concrete runs *)

Lemma sample_message_roundtrip (m : Sample.message) (rest : bytes) :
  ParseMessage (MessageBytes m ++ rest) = Some m.
Proof. reflexivity. Qed.

Lemma sample_contact_roundtrip (c : Sample.contact) (rest : bytes) :
  ParseContact (ContactBytes c ++ rest) = (Some c, rest).
Proof. destruct c. reflexivity. Qed.

(** C1. The encoding of three entries with the message bytes of the second
    replaced by garbage of the same length: the decoder returns the first
    entry alone. The skip hands back the buffer behind the bad entry, where
    the third entry parses, but the loop drops it and parses the bad entry
    again. *)
Theorem corrupted_entry_hides_later_entries :
  UpdPayloadCacheResponse_Bytes Sample.three_entries
    = Ret (le_encode 4 3 ++ framed Sample.entry_a ++ framed Sample.entry_b
           ++ framed Sample.entry_c) /\
  Sample.corrupted_response
    = le_encode 4 3 ++ framed Sample.entry_a
      ++ (le_encode 4 2 ++ Sample.garbage) ++ framed Sample.entry_c /\
  (forall rest, ParseMessage (Sample.garbage ++ rest) = @None Sample.message) /\
  ParsePayloadEntry ((le_encode 4 2 ++ Sample.garbage) ++ framed Sample.entry_c)
    = Ret (None, framed Sample.entry_c) /\
  ParsePayloadEntry (framed Sample.entry_c) = Ret (Some Sample.entry_c, []) /\
  ParsePayloadCacheResponse Sample.corrupted_response
    = Ret (Some {| RespNumEntries := 3; RespEntries := [Sample.entry_a] |}).
Proof.
  repeat split; vm_compute; reflexivity.
Qed.

(** C2, counterexample. A buffer of three bytes: both list decoders return
    nil, not a list. *)
Lemma short_buffer_gives_nil :
  ParsePayloadCacheResponse [x01; x00; x00]
    = Ret (@None (UpdPayloadCacheResponse Sample.message)) /\
  ParsePayloadCacheRequest [x01; x00; x00]
    = Ret (@None (UpdPayloadCacheRequest Sample.contact)).
Proof.
  split; reflexivity.
Qed.

(** C3, counterexample. Lists with [NumEntries] five and no entries: the
    count that is written is five, not the length of the list. *)
Lemma count_field_is_not_list_length :
  (exists buf,
     UpdPayloadCacheResponse_Bytes Sample.miscounted_response = Ret buf /\
     head_uint 4 buf <> len (RespEntries Sample.miscounted_response)) /\
  (exists buf,
     UpdPayloadCacheRequest_Bytes Sample.miscounted_request = Ret buf /\
     head_uint 4 buf <> len (ReqEntries Sample.miscounted_request)).
Proof.
  split; exists [x05; x00; x00; x00];
    (split; [reflexivity|vm_compute; discriminate]).
Qed.

Lemma count_field_is_NumEntries_witness :
  (exists buf,
     UpdPayloadCacheResponse_Bytes Sample.miscounted_response = Ret buf /\
     firstn 4 buf = le_encode 4 5 /\
     head_uint 4 buf = 5) /\
  (forall buf,
     UpdPayloadCacheRequest_Bytes Sample.one_source = Ret buf ->
     firstn 4 buf = le_encode 4 1 /\
     head_uint 4 buf = 1) /\
  (Forall (fun e => 4 <= len (ContactBytes (Source e)))
          (ReqEntries Sample.one_source) ->
   returns (UpdPayloadCacheRequest_Bytes Sample.one_source)).
Proof.
  apply (count_field_is_NumEntries
           Sample.miscounted_response Sample.one_source);
    unfold uint32; cbn; lia.
Defined.

(** C4, counterexample. An envelope that declares ten bytes over a [Data]
    of nine bytes and capacity nine: [Bytes] panics. *)
Lemma overlong_envelope_panics :
  uint16 (DataLength Sample.overlong) /\
  len (elems (Data Sample.overlong)) = 9 /\
  cap (Data Sample.overlong) = 9 /\
  UpdPayload_Bytes Sample.overlong = Panic.
Proof.
  unfold uint16. repeat split; try reflexivity; cbn; lia.
Qed.

(** C5, counterexample. Both sample codecs read a value back from its
    bytes, with anything behind them. A response with one entry whose
    [Length] is zero comes back with [Length] two, the length of the
    message's bytes. A request with one entry comes back with none: the
    entry's encoding lacks the last four bytes of the contact. And under a
    message codec that reads a message back from exactly its bytes only, a
    response of two well-formed entries comes back with none:
    [ParsePayloadEntry] hands [ParseMessage] all that is left of the
    buffer. *)
Lemma roundtrip_fails :
  ((forall (m : Sample.message) (rest : bytes),
      ParseMessage (MessageBytes m ++ rest) = Some m) /\
   (forall (c : Sample.contact) (rest : bytes),
      ParseContact (ContactBytes c ++ rest) = (Some c, rest)) /\
   RespNumEntries Sample.stale_length = len (RespEntries Sample.stale_length) /\
   (exists buf r',
      UpdPayloadCacheResponse_Bytes Sample.stale_length = Ret buf /\
      ParsePayloadCacheResponse buf = Ret (Some r') /\
      r' <> Sample.stale_length) /\
   ReqNumEntries Sample.one_source = len (ReqEntries Sample.one_source) /\
   (exists buf q',
      UpdPayloadCacheRequest_Bytes Sample.one_source = Ret buf /\
      ParsePayloadCacheRequest buf = Ret (Some q') /\
      q' <> Sample.one_source)) /\
  ((forall m : Sample.message,
      @ParseMessage _ Sample.strict_message_codec
        (@MessageBytes _ Sample.strict_message_codec m)
      = Some m) /\
   RespNumEntries Sample.two_entries = len (RespEntries Sample.two_entries) /\
   Forall (length_agrees (MC := Sample.strict_message_codec))
          (RespEntries Sample.two_entries) /\
   (exists buf r',
      UpdPayloadCacheResponse_Bytes (MC := Sample.strict_message_codec)
        Sample.two_entries = Ret buf /\
      ParsePayloadCacheResponse (MC := Sample.strict_message_codec) buf
      = Ret (Some r') /\
      r' <> Sample.two_entries)).
Proof.
  split.
  - split; [exact sample_message_roundtrip|].
    split; [exact sample_contact_roundtrip|].
    split; [reflexivity|]. split; [|split; [reflexivity|]].
    + exists [x01; x00; x00; x00; x02; x00; x00; x00; x4d; x61].
      exists {| RespNumEntries := 1;
                RespEntries := [{| Length := 2; EntryMessage := x61 |}] |}.
      split; [reflexivity|]. split; [reflexivity|]. discriminate.
    + exists ([x01; x00; x00; x00] ++ le_encode 8 7 ++ [x44; x4c]).
      exists {| ReqNumEntries := 1; ReqEntries := [] |}.
      split; [reflexivity|]. split; [reflexivity|]. discriminate.
  - split; [intros m; reflexivity|].
    split; [reflexivity|].
    split; [repeat constructor|].
    exists [x02; x00; x00; x00;
            x02; x00; x00; x00; x4d; x61;
            x02; x00; x00; x00; x4d; x62].
    exists {| RespNumEntries := 2; RespEntries := [] |}.
    split; [reflexivity|]. split; [reflexivity|]. discriminate.
Qed.

Lemma roundtrip_envelope_and_response_witness :
  (exists buf u',
     UpdPayload_Bytes Sample.envelope = Ret buf /\
     ParseUpdPayload buf = Ret (inl u') /\
     same_payload u' Sample.envelope) /\
  (exists buf,
     UpdPayloadCacheResponse_Bytes Sample.three_entries = Ret buf /\
     ParsePayloadCacheResponse buf = Ret (Some Sample.three_entries)).
Proof.
  destruct (@roundtrip_envelope_and_response
              Sample.contact Sample.message
              Sample.contact_codec Sample.message_codec)
    as (Henv & Hresp & _).
  split.
  - apply Henv; [unfold uint16; cbn; lia|reflexivity].
  - apply Hresp.
    + intros m rest. reflexivity.
    + unfold uint32. cbn. lia.
    + reflexivity.
    + repeat constructor; cbn; lia.
Defined.

Lemma request_count_exceeds_entries_witness :
  ParsePayloadCacheRequest (le_encode 4 5 ++ Sample.two_sources)
  = Ret (Some {| ReqNumEntries := 5;
                 ReqEntries := [Sample.source_1; Sample.source_2] |}).
Proof.
  apply request_count_exceeds_entries.
  - unfold uint32. lia.
  - apply (present_cons Sample.two_sources
             (le_encode 8 9 ++ Sample.contact_bytes (Source Sample.source_2)));
      [reflexivity|].
    apply (present_cons _ []); [reflexivity|].
    apply (present_end [] []). reflexivity.
  - cbn. lia.
Defined.

(** C8, counterexample. A request buffer at an entry whose contact is cut
    short: the entry does not parse, the iteration goes on to the next one,
    and the buffer that is left is the same, not a shorter one. *)
Lemma skipped_entry_keeps_cursor :
  ParseCacheEntry (req_remaining Sample.cut_short) = Ret (None, []) /\
  exists st',
    request_iter Sample.cut_short = Ret (st', Next) /\
    req_remaining st' = req_remaining Sample.cut_short /\
    ~ len (req_remaining st') < len (req_remaining Sample.cut_short).
Proof.
  split; [reflexivity|].
  exists Sample.cut_short.
  split; [reflexivity|]. split; [reflexivity|]. lia.
Qed.

Lemma decoders_total_encoders_guarded_witness :
  returns (UpdPayload_Bytes Sample.envelope) /\
  UpdPayload_Bytes Sample.overlong = Panic.
Proof.
  destruct (@decoders_total_encoders_guarded
              Sample.contact Sample.message
              Sample.contact_codec Sample.message_codec)
    as (_ & _ & _ & Henv).
  split.
  - apply (Henv Sample.envelope); [unfold uint16; cbn; lia|cbn; lia].
  - apply (Henv Sample.overlong); [unfold uint16; cbn; lia|cbn; lia].
Defined.

Lemma response_keeps_parseable_prefix_witness :
  response_iter Sample.at_first_entry = Ret Sample.at_bad_entry /\
  response_iter Sample.at_bad_entry = Ret Sample.at_bad_entry /\
  response_loop 2 Sample.at_bad_entry = Ret Sample.at_bad_entry /\
  ParsePayloadCacheResponse Sample.corrupted_response
  = Ret (Some {| RespNumEntries := 3; RespEntries := [Sample.entry_a] |}).
Proof.
  destruct (@response_keeps_parseable_prefix
              Sample.message Sample.message_codec)
    as (Hiter & Hloop & Hall).
  split; [reflexivity|].
  split; [|split].
  - apply (Hiter Sample.at_bad_entry (resp_buf Sample.at_bad_entry)
             (framed Sample.entry_c)); reflexivity.
  - apply (Hloop 2%nat Sample.at_bad_entry (resp_buf Sample.at_bad_entry)
             (framed Sample.entry_c)); reflexivity.
  - rewrite Hall. reflexivity.
Defined.

Lemma decoders_return_and_cursor_witness :
  request_iter Sample.cut_short = Ret (Sample.cut_short, Next) /\
  exists st',
    response_iter Sample.at_first_entry = Ret st' /\
    resp_entries st' = [Sample.entry_a] /\
    len (resp_remaining st') + 4 + 2 = len (resp_remaining Sample.at_first_entry) /\
    len (resp_remaining st') < len (resp_remaining Sample.at_first_entry).
Proof.
  destruct (@decoders_return_and_cursor
              Sample.contact Sample.message
              Sample.contact_codec Sample.message_codec)
    as (_ & _ & _ & Hreq & Hresp).
  split.
  - apply (Hreq Sample.cut_short []). reflexivity.
  - apply (Hresp Sample.at_first_entry Sample.entry_a
             (resp_buf Sample.at_bad_entry)); [cbn; lia|reflexivity].
Defined.

Lemma ParseUpdPayload_error_iff_witness :
  (forall u, ParseUpdPayload [x01; x02; x00; x0a; x0b] = Ret (inl u) ->
     Operation u = x01 /\
     DataLength u = 2 /\
     elems (Data u) = [x0a; x0b] /\
     len (elems (Data u)) = 2) /\
  ((exists e, ParseUpdPayload [x01; x02; x00; x0a] = Ret (inr e)) <->
   (len [x01; x02; x00; x0a] < 3 \/
    len [x01; x02; x00; x0a] - 3
    < head_uint 2 (skipn 1 [x01; x02; x00; x0a]))).
Proof.
  split.
  - intros u Hu.
    destruct (ParseUpdPayload_error_iff [x01; x02; x00; x0a; x0b])
      as (_ & _ & Hok & _).
    destruct (Hok u Hu) as (Hop & Hdl & Hdata & Hlen).
    rewrite Hdl in Hdata, Hlen.
    repeat split; assumption.
  - apply (ParseUpdPayload_error_iff [x01; x02; x00; x0a]).
Defined.

(** ** Further properties of the codecs *)

Section Entries.

Context {Contact Message : Type}.
Context {CC : ContactCodec Contact} {MC : MessageCodec Message}.

(** X1. [UpdPayloadEntry.Bytes] never panics and never reads the [Length]
    field: the encoding is four bytes holding the length of the message's
    bytes (modulo 2^32), then those bytes, and it is the same whatever
    [Length] the entry carries. *)
Theorem UpdPayloadEntry_Bytes_ignores_Length (e : UpdPayloadEntry Message) :
  exists buf,
    UpdPayloadEntry_Bytes e = Ret buf /\
    len buf = 4 + len (MessageBytes (EntryMessage e)) /\
    head_uint 4 buf = len (MessageBytes (EntryMessage e)) mod 2 ^ 32 /\
    skipn 4 buf = MessageBytes (EntryMessage e) /\
    forall l : Z,
      UpdPayloadEntry_Bytes {| Length := l; EntryMessage := EntryMessage e |}
      = Ret buf.
Proof.
  exists (framed e).
  assert (Hh : length (le_encode 4 (len (MessageBytes (EntryMessage e))))
               = 4%nat) by apply le_encode_length.
  split; [apply UpdPayloadEntry_Bytes_eq|].
  unfold framed. split; [|split; [|split]].
  - rewrite len_app. unfold len at 1. lia.
  - unfold head_uint. rewrite firstn_app_exact by lia.
    apply (le_decode_encode 4).
  - apply skipn_app_exact. lia.
  - intros l. apply (UpdPayloadEntry_Bytes_eq {| Length := l;
                        EntryMessage := EntryMessage e |}).
Qed.

(** An entry whose prefix declares the length of [g], before [g] and
    [tail]. *)
Lemma ParsePayloadEntry_declared (g tail : bytes) :
  uint32 (len g) ->
  ParsePayloadEntry (le_encode 4 (len g) ++ g ++ tail)
  = Ret (option_map (Build_UpdPayloadEntry (len g)) (ParseMessage (g ++ tail)),
         tail).
Proof.
  intros Hg. unfold uint32 in Hg.
  rewrite ParsePayloadEntry_eq.
  set (hdr := le_encode 4 (len g)).
  assert (Hh : length hdr = 4%nat) by apply le_encode_length.
  pose proof (len_nonneg tail) as Ht.
  assert (Hlen : len (hdr ++ g ++ tail) = 4 + len g + len tail)
    by (rewrite !len_app; unfold len at 1; lia).
  assert (Hhead : head_uint 4 (hdr ++ g ++ tail) = len g).
  { unfold head_uint. rewrite firstn_app_exact by lia.
    apply le_decode_encode_small. cbn. lia. }
  rewrite Hhead, Hlen.
  destruct (4 + len g + len tail <? 4) eqn:E4; [lia|].
  destruct (4 + len g + len tail <? 4 + len g) eqn:EL; [lia|].
  rewrite (skipn_app_exact 4 hdr) by lia.
  rewrite (app_assoc hdr g tail).
  rewrite skipn_app_exact by (rewrite length_app; unfold len; lia).
  reflexivity.
Qed.

(** X2. Skip by declared length. On a prefix that declares the length of
    [g], followed by [g] and by [tail], [ParsePayloadEntry] returns [tail]
    as the remainder whether or not a message parses; the entry is there
    exactly when [ParseMessage] accepts what follows the prefix ([g] and
    [tail] together), and then carries the declared length. *)
Theorem ParsePayloadEntry_skips_declared (g tail : bytes) :
  uint32 (len g) ->
  ParsePayloadEntry (le_encode 4 (len g) ++ g ++ tail)
  = Ret (option_map (Build_UpdPayloadEntry (len g)) (ParseMessage (g ++ tail)),
         tail).
Proof.
  exact (ParsePayloadEntry_declared g tail).
Qed.

(** X3. The declared length is not checked against the message. When the
    prefix declares [l] bytes, fewer than the message's encoding has, the
    message is still parsed, from all that follows the prefix; the entry
    carries [l], and the remainder starts [l] bytes behind the prefix,
    inside the message's bytes. *)
Theorem ParsePayloadEntry_short_declared (m : Message) (l : Z) (tail : bytes) :
  (forall m' rest, ParseMessage (MessageBytes m' ++ rest) = Some m') ->
  0 <= l <= len (MessageBytes m) ->
  uint32 l ->
  ParsePayloadEntry (le_encode 4 l ++ MessageBytes m ++ tail)
  = Ret (Some {| Length := l; EntryMessage := m |},
         skipn (Z.to_nat l) (MessageBytes m) ++ tail).
Proof.
  intros Hcodec Hl Hu.
  pose proof (ParsePayloadEntry_declared
                (firstn (Z.to_nat l) (MessageBytes m))
                (skipn (Z.to_nat l) (MessageBytes m) ++ tail)) as H.
  rewrite len_firstn in H by lia.
  rewrite Z2Nat.id in H by lia.
  rewrite (app_assoc (firstn _ _) (skipn _ _) tail) in H.
  rewrite firstn_skipn in H.
  rewrite Hcodec in H. exact (H Hu).
Qed.

(** X4. [UpdRequestCacheEntry.Bytes] makes its buffer four bytes longer
    than the contact's bytes, though the counter takes eight. For a contact
    of fewer than four bytes the slice [buf[0:8]] panics. For any other the
    encoding is the counter in eight bytes and the contact's bytes without
    their last four, four bytes longer than the contact's bytes in all. *)
Theorem UpdRequestCacheEntry_Bytes_short_buffer
    (e : UpdRequestCacheEntry Contact) :
  (len (ContactBytes (Source e)) < 4 /\
   UpdRequestCacheEntry_Bytes e = Panic)
  \/
  (4 <= len (ContactBytes (Source e)) /\
   exists buf,
     UpdRequestCacheEntry_Bytes e = Ret buf /\
     len buf = len (ContactBytes (Source e)) + 4 /\
     firstn 8 buf = le_encode 8 (SeqCounter e) /\
     skipn 8 buf ++ skipn (length (ContactBytes (Source e)) - 4)
                          (ContactBytes (Source e))
     = ContactBytes (Source e)).
Proof.
  rewrite UpdRequestCacheEntry_Bytes_eq.
  set (ct := ContactBytes (Source e)).
  assert (Hh : length (le_encode 8 (SeqCounter e)) = 8%nat)
    by apply le_encode_length.
  destruct (len ct <? 4) eqn:E4.
  - left. split; [lia|reflexivity].
  - right. split; [lia|]. eexists. split; [reflexivity|].
    split; [|split].
    + rewrite len_app. unfold len in *. rewrite length_firstn. lia.
    + apply firstn_app_exact. lia.
    + rewrite skipn_app_exact by lia. apply firstn_skipn.
Qed.

End Entries.

Section Lists.

Context {Contact Message : Type}.
Context {CC : ContactCodec Contact} {MC : MessageCodec Message}.

Lemma request_prefix_stuck (n : nat) (buf r : bytes) :
  ParseCacheEntry buf = Ret (None, r) -> request_prefix n buf = [].
Proof.
  intros H. destruct n; cbn [request_prefix]; [reflexivity|].
  now rewrite H.
Qed.

Lemma request_prefix_nil (n : nat) : request_prefix n [] = [].
Proof.
  apply (request_prefix_stuck n [] []).
  apply ParseCacheEntry_short. cbn. lia.
Qed.

Lemma request_loop_prefix (n : nat) (st : ReqLoop Contact) :
  exists st',
    request_loop n st = Ret st' /\
    req_entries st' = req_entries st ++ request_prefix n (req_buf st).
Proof.
  revert st. induction n as [|n IH]; intros st.
  - exists st. split; [reflexivity|]. cbn. now rewrite app_nil_r.
  - cbn [request_loop request_prefix]. unfold request_iter.
    destruct (ParseCacheEntry_total (req_buf st)) as (m & rest & Hp).
    rewrite Hp. cbn [bind].
    destruct m as [c|]; cbn [bind].
    + destruct (len rest =? 0) eqn:E0; cbn [bind].
      * assert (rest = []) as ->
          by (destruct rest; [reflexivity|rewrite len_cons in E0;
              pose proof (len_nonneg rest); lia]).
        eexists. split; [reflexivity|].
        cbn [req_entries]. now rewrite request_prefix_nil.
      * destruct (IH {| req_buf := rest;
                        req_entries := req_entries st ++ [c] |})
          as (st' & Hl & He).
        exists st'. split; [exact Hl|].
        rewrite He. cbn [req_buf req_entries]. now rewrite <- app_assoc.
    + destruct (IH st) as (st' & Hl & He).
      exists st'. split; [exact Hl|].
      now rewrite He, (request_prefix_stuck n _ _ Hp).
Qed.

Lemma ParsePayloadCacheRequest_prefix (buf : bytes) :
  ParsePayloadCacheRequest buf =
  Ret (if len buf <? 4 then None
       else Some {| ReqNumEntries := head_uint 4 buf;
                    ReqEntries :=
                      request_prefix (Z.to_nat (head_uint 4 buf))
                                     (skipn 4 buf) |}).
Proof.
  rewrite ParsePayloadCacheRequest_shape.
  destruct (len buf <? 4); [reflexivity|].
  destruct (request_loop_prefix (Z.to_nat (head_uint 4 buf))
              {| req_buf := skipn 4 buf; req_entries := [] |})
    as (st' & Hl & He).
  rewrite Hl. cbn [bind]. rewrite He. reflexivity.
Qed.

(** X5. The list [ParsePayloadCacheRequest] returns is the run of entries
    that parse one after the other from the start of the body, up to the
    declared count and up to the first position [ParseCacheEntry] returns
    no entry for: after a failure the buffer stays where it is and nothing
    more is returned. The [break] on an empty buffer saves iterations and
    changes no result. A buffer under four bytes gives nil. *)
Theorem request_keeps_parseable_prefix (buf : bytes) :
  ParsePayloadCacheRequest buf =
  Ret (if len buf <? 4 then None
       else Some {| ReqNumEntries := head_uint 4 buf;
                    ReqEntries :=
                      request_prefix (Z.to_nat (head_uint 4 buf))
                                     (skipn 4 buf) |}).
Proof.
  exact (ParsePayloadCacheRequest_prefix buf).
Qed.

Lemma ParseCacheEntry_wire (e : UpdRequestCacheEntry Contact) (tail : bytes) :
  (forall c rest, ParseContact (ContactBytes c ++ rest) = (Some c, rest)) ->
  uint64 (SeqCounter e) ->
  1 <= len (ContactBytes (Source e)) ->
  ParseCacheEntry (wire_entry e ++ tail) = Ret (Some e, tail).
Proof.
  intros Hcodec Hu Hc. unfold uint64 in Hu.
  rewrite ParseCacheEntry_eq. unfold wire_entry.
  destruct e as [seq c]. cbn [SeqCounter Source] in *.
  set (hdr := le_encode 8 seq).
  assert (Hh : length hdr = 8%nat) by apply le_encode_length.
  pose proof (len_nonneg tail) as Ht.
  assert (Hlen : len ((hdr ++ ContactBytes c) ++ tail)
                 = 8 + len (ContactBytes c) + len tail)
    by (rewrite !len_app; unfold len at 1; lia).
  rewrite Hlen.
  destruct (8 + len (ContactBytes c) + len tail <? 9) eqn:E9; [lia|].
  assert (Hhead : head_uint 8 ((hdr ++ ContactBytes c) ++ tail) = seq).
  { unfold head_uint. rewrite <- app_assoc.
    rewrite firstn_app_exact by lia.
    apply le_decode_encode_small. cbn. lia. }
  rewrite Hhead, <- (app_assoc hdr).
  rewrite (skipn_app_exact 8 hdr) by lia.
  now rewrite Hcodec.
Qed.

Lemma request_prefix_wire (es : list (UpdRequestCacheEntry Contact)) :
  (forall c rest, ParseContact (ContactBytes c ++ rest) = (Some c, rest)) ->
  Forall (fun e => uint64 (SeqCounter e) /\
                   1 <= len (ContactBytes (Source e))) es ->
  forall n : nat,
    request_prefix n (concat (map wire_entry es)) = firstn n es.
Proof.
  intros Hcodec Hall.
  induction Hall as [|e es [Hu Hc] _ IH]; intros n.
  - cbn [map concat]. rewrite request_prefix_nil. now rewrite firstn_nil.
  - destruct n as [|n]; [reflexivity|].
    cbn [map concat request_prefix firstn].
    rewrite ParseCacheEntry_wire by assumption.
    now rewrite IH.
Qed.

(** X6. [ParsePayloadCacheRequest] reads the wire format of a request: on
    a count followed by entries, each the counter in eight bytes and then
    the contact's bytes, it returns the declared count and the entries in
    order, as many of them as the count allows. The contact codec has to
    read a contact back from its bytes with anything behind them, and each
    contact has to have at least one byte: an entry of eight bytes only is
    turned down before the contact is looked at. *)
Theorem request_reads_wire_format (n : Z)
    (es : list (UpdRequestCacheEntry Contact)) :
  (forall c rest, ParseContact (ContactBytes c ++ rest) = (Some c, rest)) ->
  uint32 n ->
  Forall (fun e => uint64 (SeqCounter e) /\
                   1 <= len (ContactBytes (Source e))) es ->
  ParsePayloadCacheRequest (le_encode 4 n ++ concat (map wire_entry es))
  = Ret (Some {| ReqNumEntries := n; ReqEntries := firstn (Z.to_nat n) es |}).
Proof.
  intros Hcodec Hn Hall. unfold uint32 in Hn.
  rewrite ParsePayloadCacheRequest_prefix.
  set (body := concat (map wire_entry es)).
  assert (Hh : length (le_encode 4 n) = 4%nat) by apply le_encode_length.
  pose proof (len_nonneg body) as Hb.
  assert (Hhead : head_uint 4 (le_encode 4 n ++ body) = n).
  { unfold head_uint. rewrite firstn_app_exact by lia.
    apply le_decode_encode_small. cbn. lia. }
  rewrite Hhead, len_app, skipn_app_exact by lia.
  destruct (len (le_encode 4 n) + len body <? 4) eqn:E4;
    [unfold len in *; lia|].
  subst body. now rewrite request_prefix_wire.
Qed.

Lemma parseable_prefix_framed_tail (es : list (UpdPayloadEntry Message))
    (tail r : bytes) :
  (forall m rest, ParseMessage (MessageBytes m ++ rest) = Some m) ->
  Forall (fun e => uint32 (Length e) /\ length_agrees e) es ->
  ParsePayloadEntry tail = Ret (None, r) ->
  forall n : nat,
    parseable_prefix n (concat (map framed es) ++ tail) = firstn n es.
Proof.
  intros Hcodec Hall Htail.
  induction Hall as [|e es [Hu Ha] _ IH]; intros n.
  - cbn [map concat app]. rewrite (parseable_prefix_stuck n tail r Htail).
    now rewrite firstn_nil.
  - destruct n as [|n]; [reflexivity|].
    cbn [map concat parseable_prefix firstn].
    rewrite <- app_assoc.
    rewrite ParsePayloadEntry_framed by assumption.
    now rewrite IH.
Qed.

(** X7. On a count followed by well-formed entries and by a tail that is
    no entry (nothing, fewer than four bytes, or a prefix that declares
    more than is left), [ParsePayloadCacheResponse] returns the declared
    count and the entries in order, as many of them as the count allows:
    all of them when the count is at least their number, the first [n]
    when the count [n] is smaller. The tail is dropped. *)
Theorem response_count_caps_entries (n : Z)
    (es : list (UpdPayloadEntry Message)) (tail r : bytes) :
  (forall m rest, ParseMessage (MessageBytes m ++ rest) = Some m) ->
  uint32 n ->
  Forall (fun e => uint32 (Length e) /\ length_agrees e) es ->
  ParsePayloadEntry tail = Ret (None, r) ->
  ParsePayloadCacheResponse
    (le_encode 4 n ++ concat (map framed es) ++ tail)
  = Ret (Some {| RespNumEntries := n;
                 RespEntries := firstn (Z.to_nat n) es |}).
Proof.
  intros Hcodec Hn Hall Htail. unfold uint32 in Hn.
  rewrite ParsePayloadCacheResponse_eq.
  set (body := concat (map framed es) ++ tail).
  assert (Hh : length (le_encode 4 n) = 4%nat) by apply le_encode_length.
  pose proof (len_nonneg body) as Hb.
  assert (Hhead : head_uint 4 (le_encode 4 n ++ body) = n).
  { unfold head_uint. rewrite firstn_app_exact by lia.
    apply le_decode_encode_small. cbn. lia. }
  rewrite Hhead, len_app, skipn_app_exact by lia.
  destruct (len (le_encode 4 n) + len body <? 4) eqn:E4;
    [unfold len in *; lia|].
  subst body. now rewrite (parseable_prefix_framed_tail es tail r).
Qed.

Lemma parseable_prefix_fits (n : nat) (buf : bytes) :
  4 * len (parseable_prefix n buf) <= declared_bytes (parseable_prefix n buf)
  /\ declared_bytes (parseable_prefix n buf) <= len buf.
Proof.
  revert buf. induction n as [|n IH]; intros buf;
    cbn [parseable_prefix].
  - cbn. pose proof (len_nonneg buf). lia.
  - destruct (ParsePayloadEntry buf) as [[[e|] rest]|] eqn:Hp;
      try (cbn; pose proof (len_nonneg buf); lia).
    apply ParsePayloadEntry_advances in Hp. destruct Hp as [H0 Hlen].
    destruct (IH rest) as [IH1 IH2].
    cbn [declared_bytes]. rewrite len_cons. lia.
Qed.

(** X8. What [ParsePayloadCacheResponse] returns fits in the buffer it was
    given, whatever count the buffer declares: the prefixes and declared
    lengths of the returned entries add up to no more than the bytes
    behind the count, so there are at most a quarter as many entries as
    there are such bytes. *)
Theorem response_entries_fit (buf : bytes)
    (r : UpdPayloadCacheResponse Message) :
  ParsePayloadCacheResponse buf = Ret (Some r) ->
  declared_bytes (RespEntries r) <= len buf - 4 /\
  4 * len (RespEntries r) <= len buf - 4.
Proof.
  rewrite ParsePayloadCacheResponse_eq. intros H.
  destruct (len buf <? 4) eqn:E4; [discriminate|].
  assert (Hr : r = {| RespNumEntries := head_uint 4 buf;
                      RespEntries :=
                        parseable_prefix (Z.to_nat (head_uint 4 buf))
                                         (skipn 4 buf) |})
    by congruence.
  subst r.
  change (RespEntries _)
    with (parseable_prefix (Z.to_nat (head_uint 4 buf)) (skipn 4 buf)).
  destruct (parseable_prefix_fits (Z.to_nat (head_uint 4 buf)) (skipn 4 buf))
    as [H1 H2].
  rewrite len_skipn in H2 by lia.
  change (Z.of_nat 4) with 4 in H2. lia.
Qed.

(** X9. The empty list. Encoding a request or a response with no entries
    gives the four bytes of its [NumEntries] and nothing else, and decoding
    four bytes gives the count they hold and no entries, whatever that
    count is. *)
Theorem count_only_buffer (n : Z) :
  uint32 n ->
  UpdPayloadCacheResponse_Bytes
    {| RespNumEntries := n; RespEntries := @nil (UpdPayloadEntry Message) |}
    = Ret (le_encode 4 n) /\
  UpdPayloadCacheRequest_Bytes
    {| ReqNumEntries := n;
       ReqEntries := @nil (UpdRequestCacheEntry Contact) |}
    = Ret (le_encode 4 n) /\
  ParsePayloadCacheResponse (le_encode 4 n)
    = Ret (Some {| RespNumEntries := n;
                   RespEntries := @nil (UpdPayloadEntry Message) |}) /\
  ParsePayloadCacheRequest (le_encode 4 n)
    = Ret (Some {| ReqNumEntries := n;
                   ReqEntries := @nil (UpdRequestCacheEntry Contact) |}).
Proof.
  intros Hn. unfold uint32 in Hn.
  assert (Hhead : head_uint 4 (le_encode 4 n) = n).
  { unfold head_uint.
    rewrite <- (le_encode_length 4 n) at 1. rewrite firstn_all.
    apply le_decode_encode_small. cbn. lia. }
  assert (Hskip : skipn 4 (le_encode 4 n) = []) by reflexivity.
  assert (Hlen : len (le_encode 4 n) = 4) by reflexivity.
  split; [|split; [|split]].
  - rewrite UpdPayloadCacheResponse_Bytes_eq. cbn [RespNumEntries RespEntries map concat].
    apply f_equal, app_nil_r.
  - rewrite UpdPayloadCacheRequest_Bytes_ok by constructor.
    cbn [ReqNumEntries ReqEntries map concat]. apply f_equal, app_nil_r.
  - rewrite ParsePayloadCacheResponse_eq, Hhead, Hskip, Hlen.
    change (4 <? 4) with false. cbv iota.
    rewrite (parseable_prefix_stuck _ [] []); [reflexivity|].
    rewrite ParsePayloadEntry_eq. reflexivity.
  - rewrite ParsePayloadCacheRequest_prefix, Hhead, Hskip, Hlen.
    change (4 <? 4) with false. cbv iota.
    now rewrite request_prefix_nil.
Qed.

End Lists.

(** X10. [ParseUpdPayload] reads the declared number of bytes and lets any
    bytes behind them be: on an operation, a declared length, that many
    bytes of data and then [extra], it returns the payload with that data;
    [extra] is no error and no part of [Data], but lies in the capacity of
    the returned slice. *)
Theorem ParseUpdPayload_ignores_trailing (op : byte) (data extra : bytes) :
  uint16 (len data) ->
  ParseUpdPayload (op :: le_encode 2 (len data) ++ data ++ extra)
  = Ret (inl {| Operation := op;
                DataLength := len data;
                Data := {| elems := data; spare := extra |} |}).
Proof.
  intros Hu. unfold uint16 in Hu.
  rewrite ParseUpdPayload_eq.
  set (hdr := le_encode 2 (len data)).
  assert (Hh : length hdr = 2%nat) by apply le_encode_length.
  pose proof (len_nonneg extra) as He.
  assert (Hlen : len (op :: hdr ++ data ++ extra) = 3 + len data + len extra)
    by (rewrite len_cons, !len_app; unfold len at 1; lia).
  assert (Hd : head_uint 2 (skipn 1 (op :: hdr ++ data ++ extra)) = len data).
  { unfold head_uint. cbn [skipn].
    rewrite firstn_app_exact by lia.
    apply le_decode_encode_small. cbn. lia. }
  rewrite Hd, Hlen.
  destruct (3 + len data + len extra <? 3) eqn:E3; [lia|].
  destruct (3 + len data + len extra - 3 <? len data) eqn:E4; [lia|].
  change (skipn 3 (op :: hdr ++ data ++ extra))
    with (skipn 2 (hdr ++ data ++ extra)).
  rewrite (skipn_app_exact 2 hdr) by lia.
  rewrite firstn_app_exact by (unfold len; lia).
  replace (Z.to_nat (3 + len data)) with (S (2 + length data))
    by (unfold len; lia).
  cbn [skipn].
  rewrite (app_assoc hdr data extra).
  rewrite skipn_app_exact by (rewrite length_app; lia).
  reflexivity.
Qed.

(** X11. Parsing and encoding again. When [ParseUpdPayload] returns a
    payload for a buffer, [UpdPayload.Bytes] of that payload returns, and
    gives back the buffer up to the end of the declared data: the three
    bytes of the header and [DataLength] bytes, without what was behind
    them. *)
Theorem UpdPayload_Bytes_of_parsed (buf : bytes) (u : UpdPayload) :
  ParseUpdPayload buf = Ret (inl u) ->
  UpdPayload_Bytes u = Ret (firstn (Z.to_nat (3 + DataLength u)) buf).
Proof.
  rewrite ParseUpdPayload_eq. intros H.
  destruct (len buf <? 3) eqn:E3; [discriminate|].
  destruct (len buf - 3 <? head_uint 2 (skipn 1 buf)) eqn:E4; [discriminate|].
  pose proof (le_decode_firstn_range 2 (skipn 1 buf)) as Hr.
  fold (head_uint 2 (skipn 1 buf)) in Hr.
  set (dl := head_uint 2 (skipn 1 buf)) in *.
  assert (Hu : u = {| Operation := nth 0 buf x00;
                      DataLength := dl;
                      Data := {| elems := firstn (Z.to_nat dl) (skipn 3 buf);
                                 spare := skipn (Z.to_nat (3 + dl)) buf |} |})
    by congruence.
  clear H. subst u.
  rewrite UpdPayload_Bytes_eq by (cbn [DataLength]; lia).
  cbn [Operation DataLength Data elems spare]. unfold cap.
  cbn [elems spare].
  assert (Hel : len (firstn (Z.to_nat dl) (skipn 3 buf)) = dl)
    by (rewrite len_firstn; [lia|]; rewrite len_skipn; lia).
  pose proof (len_nonneg (skipn (Z.to_nat (3 + dl)) buf)) as Hsp.
  destruct (dl <=? len (firstn (Z.to_nat dl) (skipn 3 buf))
                   + len (skipn (Z.to_nat (3 + dl)) buf)) eqn:Ec; [|lia].
  rewrite firstn_app_exact by (unfold len in Hel; lia).
  destruct buf as [|op [|b1 [|b2 rest]]];
    try (cbn in E3; discriminate).
  f_equal.
  replace (Z.to_nat (3 + dl)) with (S (S (S (Z.to_nat dl)))) by lia.
  cbn [firstn nth skipn]. f_equal.
  subst dl. unfold head_uint. cbn [skipn firstn].
  change (le_encode 2 (le_decode [b1; b2]))
    with (le_encode (length [b1; b2]) (le_decode [b1; b2])).
  rewrite le_encode_decode. reflexivity.
Qed.

(** X12. [UpdPayload.Bytes] reads past the length of [Data]. When
    [DataLength] is more than the length of [Data] and no more than its
    capacity, the encoder returns, and what it writes behind [Data] are
    the bytes that lie in the array after it. *)
Theorem UpdPayload_Bytes_reads_spare (u : UpdPayload) :
  uint16 (DataLength u) ->
  len (elems (Data u)) <= DataLength u ->
  DataLength u <= cap (Data u) ->
  UpdPayload_Bytes u
  = Ret (Operation u :: le_encode 2 (DataLength u)
         ++ elems (Data u)
         ++ firstn (Z.to_nat (DataLength u - len (elems (Data u))))
                   (spare (Data u))).
Proof.
  intros Hu Hlo Hhi. unfold uint16 in Hu.
  rewrite UpdPayload_Bytes_eq by lia.
  destruct (DataLength u <=? cap (Data u)) eqn:E; [|lia].
  rewrite firstn_app.
  rewrite firstn_all2 by (unfold len in Hlo; lia).
  replace (Z.to_nat (DataLength u) - length (elems (Data u)))%nat
    with (Z.to_nat (DataLength u - len (elems (Data u))))
    by (unfold len; lia).
  reflexivity.
Qed.

Section Wrapping.

Context {Message : Type} {MC : MessageCodec Message}.

(** X13. A response through the envelope. The encoding of a well-formed
    response of under 2^16 bytes, put into an envelope as its [Data] with
    its length as [DataLength], encoded, parsed as an envelope and then
    parsed as a response from the [Data] that comes back, is the response
    that went in, under the same operation byte. *)
Theorem response_through_envelope (op : byte)
    (r : UpdPayloadCacheResponse Message) (body : bytes) :
  (forall m rest, ParseMessage (MessageBytes m ++ rest) = Some m) ->
  uint32 (RespNumEntries r) ->
  RespNumEntries r = len (RespEntries r) ->
  Forall (fun e => uint32 (Length e) /\ length_agrees e) (RespEntries r) ->
  UpdPayloadCacheResponse_Bytes r = Ret body ->
  uint16 (len body) ->
  exists wire u,
    UpdPayload_Bytes {| Operation := op; DataLength := len body;
                        Data := {| elems := body; spare := [] |} |}
      = Ret wire /\
    ParseUpdPayload wire = Ret (inl u) /\
    Operation u = op /\
    ParsePayloadCacheResponse (elems (Data u)) = Ret (Some r).
Proof.
  intros Hcodec Hn Hcount Hall Hbody Hlen.
  destruct (envelope_kept {| Operation := op; DataLength := len body;
                             Data := {| elems := body; spare := [] |} |})
    as (Hb & Hp & _); [exact Hlen|cbn; lia|].
  cbn [Operation DataLength Data elems] in Hb, Hp.
  eexists _, _. split; [exact Hb|]. split; [exact Hp|].
  split; [reflexivity|]. cbn [Data elems].
  unfold len. rewrite Nat2Z.id, firstn_all.
  rewrite UpdPayloadCacheResponse_Bytes_eq in Hbody.
  assert (Hb' : body = le_encode 4 (RespNumEntries r)
                       ++ concat (map framed (RespEntries r)) ++ [])
    by (rewrite app_nil_r; congruence).
  rewrite Hb'.
  assert (Hnil : ParsePayloadEntry [] = Ret (@None (UpdPayloadEntry Message), []))
    by (rewrite ParsePayloadEntry_eq; reflexivity).
  unfold uint32 in Hn.
  rewrite ParsePayloadCacheResponse_eq.
  set (b := concat (map framed (RespEntries r)) ++ []).
  assert (Hh : length (le_encode 4 (RespNumEntries r)) = 4%nat)
    by apply le_encode_length.
  pose proof (len_nonneg b) as Hbn.
  assert (Hhead : head_uint 4 (le_encode 4 (RespNumEntries r) ++ b)
                  = RespNumEntries r).
  { unfold head_uint. rewrite firstn_app_exact by lia.
    apply le_decode_encode_small. cbn. lia. }
  rewrite Hhead, len_app, skipn_app_exact by lia.
  destruct (len (le_encode 4 (RespNumEntries r)) + len b <? 4) eqn:E4;
    [unfold len in *; lia|].
  subst b.
  rewrite (parseable_prefix_framed_tail _ [] [] Hcodec Hall Hnil).
  replace (Z.to_nat (RespNumEntries r)) with (length (RespEntries r))
    by (rewrite Hcount; unfold len; lia).
  rewrite firstn_all. destruct r; reflexivity.
Qed.

End Wrapping.

Section ListEncoders.

Context {Contact Message : Type}.
Context {CC : ContactCodec Contact} {MC : MessageCodec Message}.

Lemma collect_Forall2 {E : Type} (enc : E -> go bytes)
    (es : list E) (bs : list bytes) :
  Forall2 (fun e b => enc e = Ret b) es bs ->
  forall (ent : list bytes) (tlen : Z),
    collect enc es ent tlen = Ret (ent ++ bs, tlen + len (concat bs)).
Proof.
  induction 1 as [|e b es bs He _ IH]; intros ent tlen.
  - cbn. now rewrite app_nil_r, Z.add_0_r.
  - cbn [collect concat]. rewrite He. cbn [bind].
    rewrite IH, <- app_assoc, len_app. cbn [app]. f_equal. f_equal. lia.
Qed.

(** X14. The layout of the list encodings. [UpdPayloadCacheResponse.Bytes]
    returns the four bytes of [NumEntries] followed by what
    [UpdPayloadEntry.Bytes] returns for each entry, in the order of the
    list and with nothing between them; [UpdPayloadCacheRequest.Bytes]
    does the same with [UpdRequestCacheEntry.Bytes] whenever that returns
    for every entry. *)
Theorem list_encoders_concatenate
    (r : UpdPayloadCacheResponse Message)
    (q : UpdPayloadCacheRequest Contact) :
  (exists bs,
     Forall2 (fun e b => UpdPayloadEntry_Bytes e = Ret b) (RespEntries r) bs /\
     UpdPayloadCacheResponse_Bytes r
     = Ret (le_encode 4 (RespNumEntries r) ++ concat bs)) /\
  (forall bs,
     Forall2 (fun e b => UpdRequestCacheEntry_Bytes e = Ret b)
             (ReqEntries q) bs ->
     UpdPayloadCacheRequest_Bytes q
     = Ret (le_encode 4 (ReqNumEntries q) ++ concat bs)).
Proof.
  split.
  - exists (map framed (RespEntries r)). split.
    + induction (RespEntries r) as [|e es IH]; cbn [map]; constructor;
        [apply UpdPayloadEntry_Bytes_eq|exact IH].
    + apply UpdPayloadCacheResponse_Bytes_eq.
  - intros bs Hbs.
    unfold UpdPayloadCacheRequest_Bytes, PutUint32.
    rewrite (collect_Forall2 _ _ _ Hbs). cbn [bind app]. cbv zeta.
    set (body := concat bs).
    set (hdr := le_encode 4 (ReqNumEntries q)).
    assert (Hh : length hdr = 4%nat) by apply le_encode_length.
    pose proof (len_nonneg body) as Hl.
    replace (0 + len body + 4) with (4 + len body) by lia.
    rewrite make_app by lia.
    change (make 4 ++ make (len body)) with ([] ++ make 4 ++ make (len body)).
    rewrite (put_from 4 [] (make 4) (make (len body))) by reflexivity.
    fold hdr.
    rewrite splice_app
      by (reflexivity || (rewrite !length_app, !length_make; lia)).
    cbn [app].
    replace (0 + 4) with (len hdr) by (unfold len; lia).
    apply put_entries_eq.
Qed.

(** X15. [UpdPayloadCacheRequest.Bytes] returns exactly when the contact
    of every entry encodes to at least four bytes; one entry with a
    shorter contact makes the whole encoding panic. When it returns, the
    encoding has four bytes for the count and, for each entry, four bytes
    more than its contact's bytes. *)
Theorem UpdPayloadCacheRequest_Bytes_returns_iff
    (q : UpdPayloadCacheRequest Contact) :
  (returns (UpdPayloadCacheRequest_Bytes q) <->
   Forall (fun e => 4 <= len (ContactBytes (Source e))) (ReqEntries q)) /\
  (Exists (fun e => len (ContactBytes (Source e)) < 4) (ReqEntries q) ->
   UpdPayloadCacheRequest_Bytes q = Panic) /\
  (forall buf,
     UpdPayloadCacheRequest_Bytes q = Ret buf ->
     len buf
     = 4 + fold_right
             (fun e acc => len (ContactBytes (Source e)) + 4 + acc)
             0 (ReqEntries q)).
Proof.
  assert (Hdec : forall l : list (UpdRequestCacheEntry Contact),
             {Forall (fun e => 4 <= len (ContactBytes (Source e))) l} +
             {Exists (fun e => len (ContactBytes (Source e)) < 4) l}).
  { intros l.
    destruct (Forall_Exists_dec
                (fun e : UpdRequestCacheEntry Contact =>
                   4 <= len (ContactBytes (Source e)))
                (fun e => Z_le_dec 4 (len (ContactBytes (Source e)))) l)
      as [Hall|Hex]; [left; exact Hall|right].
    eapply Exists_impl; [|exact Hex]. cbv beta. intros e He. lia. }
  split; [|split].
  - split.
    + intros [buf Hbuf]. destruct (Hdec (ReqEntries q)) as [Hall|Hex];
        [exact Hall|].
      rewrite UpdPayloadCacheRequest_Bytes_panics in Hbuf by exact Hex.
      discriminate.
    + intros Hall. rewrite UpdPayloadCacheRequest_Bytes_ok by exact Hall.
      eexists. reflexivity.
  - apply UpdPayloadCacheRequest_Bytes_panics.
  - intros buf Hbuf. destruct (Hdec (ReqEntries q)) as [Hall|Hex];
      [|rewrite UpdPayloadCacheRequest_Bytes_panics in Hbuf by exact Hex;
        discriminate].
    rewrite UpdPayloadCacheRequest_Bytes_ok in Hbuf by exact Hall.
    match type of Hbuf with Ret ?b = _ =>
      assert (Hb : buf = b) by congruence end.
    clear Hbuf. subst buf.
    rewrite len_app. unfold len at 1. rewrite le_encode_length.
    change (Z.of_nat 4) with 4. f_equal.
    induction Hall as [|e es He _ IH]; [reflexivity|].
    cbn [map concat fold_right]. rewrite !len_app, IH.
    unfold len at 1. rewrite le_encode_length.
    unfold len in *. rewrite length_firstn. lia.
Qed.

End ListEncoders.

(** ** Concrete runs of the further properties *)

Lemma ParsePayloadEntry_skips_declared_witness :
  ParsePayloadEntry
    (le_encode 4 2 ++ Sample.garbage ++ framed Sample.entry_c)
  = Ret (@None (UpdPayloadEntry Sample.message), framed Sample.entry_c).
Proof.
  refine (ParsePayloadEntry_skips_declared
            Sample.garbage (framed Sample.entry_c) _).
  unfold uint32. cbn. lia.
Defined.

Lemma ParsePayloadEntry_short_declared_witness :
  ParsePayloadEntry (le_encode 4 0 ++ [x4d; x61] ++ [])
  = Ret (Some {| Length := 0; EntryMessage := (x61 : Sample.message) |},
         [x4d; x61]).
Proof.
  refine (ParsePayloadEntry_short_declared
            (x61 : Sample.message) 0 [] _ _ _).
  - intros m rest. reflexivity.
  - cbn. lia.
  - unfold uint32. lia.
Defined.

Lemma request_reads_wire_format_witness :
  ParsePayloadCacheRequest
    (le_encode 4 1
     ++ concat (map wire_entry [Sample.source_1; Sample.source_2]))
  = Ret (Some {| ReqNumEntries := 1; ReqEntries := [Sample.source_1] |}).
Proof.
  refine (request_reads_wire_format
            1 [Sample.source_1; Sample.source_2] _ _ _).
  - intros c rest. destruct c. reflexivity.
  - unfold uint32. lia.
  - repeat constructor; unfold uint64; cbn; lia.
Defined.

Lemma response_count_caps_entries_witness :
  ParsePayloadCacheResponse
    (le_encode 4 2
     ++ concat (map framed [Sample.entry_a; Sample.entry_b; Sample.entry_c])
     ++ [x01; x02])
  = Ret (Some {| RespNumEntries := 2;
                 RespEntries := [Sample.entry_a; Sample.entry_b] |}).
Proof.
  refine (response_count_caps_entries
            2 [Sample.entry_a; Sample.entry_b; Sample.entry_c]
            [x01; x02] [] _ _ _ _).
  - intros m rest. reflexivity.
  - unfold uint32. lia.
  - repeat constructor; unfold uint32; cbn; lia.
  - reflexivity.
Defined.

Lemma response_entries_fit_witness :
  declared_bytes [Sample.entry_a] <= len Sample.corrupted_response - 4 /\
  4 * len [Sample.entry_a] <= len Sample.corrupted_response - 4.
Proof.
  refine (response_entries_fit Sample.corrupted_response
            {| RespNumEntries := 3; RespEntries := [Sample.entry_a] |} _).
  reflexivity.
Defined.

Lemma count_only_buffer_witness :
  UpdPayloadCacheResponse_Bytes
    {| RespNumEntries := 7;
       RespEntries := @nil (UpdPayloadEntry Sample.message) |}
    = Ret [x07; x00; x00; x00] /\
  UpdPayloadCacheRequest_Bytes
    {| ReqNumEntries := 7;
       ReqEntries := @nil (UpdRequestCacheEntry Sample.contact) |}
    = Ret [x07; x00; x00; x00] /\
  ParsePayloadCacheResponse [x07; x00; x00; x00]
    = Ret (Some {| RespNumEntries := 7;
                   RespEntries := @nil (UpdPayloadEntry Sample.message) |}) /\
  ParsePayloadCacheRequest [x07; x00; x00; x00]
    = Ret (Some {| ReqNumEntries := 7;
                   ReqEntries := @nil (UpdRequestCacheEntry Sample.contact) |}).
Proof.
  refine (count_only_buffer 7 _).
  unfold uint32. lia.
Defined.

Lemma ParseUpdPayload_ignores_trailing_witness :
  ParseUpdPayload [x01; x02; x00; x0a; x0b; xff]
  = Ret (inl {| Operation := x01; DataLength := 2;
                Data := {| elems := [x0a; x0b]; spare := [xff] |} |}).
Proof.
  refine (ParseUpdPayload_ignores_trailing x01 [x0a; x0b] [xff] _).
  unfold uint16. cbn. lia.
Defined.

Lemma UpdPayload_Bytes_of_parsed_witness :
  UpdPayload_Bytes
    {| Operation := x01; DataLength := 2;
       Data := {| elems := [x0a; x0b]; spare := [xff] |} |}
  = Ret [x01; x02; x00; x0a; x0b].
Proof.
  refine (UpdPayload_Bytes_of_parsed [x01; x02; x00; x0a; x0b; xff]
            {| Operation := x01; DataLength := 2;
               Data := {| elems := [x0a; x0b]; spare := [xff] |} |} _).
  reflexivity.
Defined.

Lemma UpdPayload_Bytes_reads_spare_witness :
  UpdPayload_Bytes
    {| Operation := x01; DataLength := 3;
       Data := {| elems := [x0a; x0b]; spare := [x0c; x0d] |} |}
  = Ret [x01; x03; x00; x0a; x0b; x0c].
Proof.
  refine (UpdPayload_Bytes_reads_spare
            {| Operation := x01; DataLength := 3;
               Data := {| elems := [x0a; x0b]; spare := [x0c; x0d] |} |}
            _ _ _).
  - unfold uint16. cbn. lia.
  - cbn. lia.
  - cbn. lia.
Defined.

Lemma response_through_envelope_witness :
  exists wire u,
    UpdPayload_Bytes
      {| Operation := x01;
         DataLength := 22;
         Data := {| elems := le_encode 4 3 ++ framed Sample.entry_a
                             ++ framed Sample.entry_b ++ framed Sample.entry_c;
                    spare := [] |} |}
      = Ret wire /\
    ParseUpdPayload wire = Ret (inl u) /\
    Operation u = x01 /\
    ParsePayloadCacheResponse (elems (Data u))
    = Ret (Some Sample.three_entries).
Proof.
  refine (response_through_envelope x01 Sample.three_entries
            (le_encode 4 3 ++ framed Sample.entry_a
             ++ framed Sample.entry_b ++ framed Sample.entry_c)
            _ _ _ _ _ _).
  - intros m rest. reflexivity.
  - unfold uint32. cbn. lia.
  - reflexivity.
  - repeat constructor; unfold uint32; cbn; lia.
  - reflexivity.
  - unfold uint16. cbn. lia.
Defined.
